(** * Distance Vector Routing simulation: a shallow embedding of
      [routing_protocol.py] and the properties of its convergence loop.

    Python dictionaries keep insertion order and have unique keys; they are
    modelled as association lists whose [Dict.set] overwrites in place or
    appends.  Costs are integers extended with [float('inf')].  A [KeyError]
    is a [Raise] result that carries the state reached when it was raised.
    The [while True] loop runs on fuel; termination is proved, not assumed. *)

From Stdlib Require Import List ZArith Bool Lia String Arith.
Import ListNotations.

Local Open Scope string_scope.
Local Open Scope list_scope.
Local Open Scope Z_scope.

(** ** Insertion-ordered dictionaries keyed by strings *)

Module Dict.

Section Ops.
Context {V : Type}.

Definition dict := list (string * V).

Definition keys (d : dict) : list string := map fst d.
Definition values (d : dict) : list V := map snd d.

(** [d.get(k)] / [d[k]]: [None] stands for the missing key. *)
Fixpoint get (d : dict) (k : string) : option V :=
match d with
| [] => None
| (k', v) :: d' => if String.eqb k' k then Some v else get d' k
end.

(** [d.get(k, dflt)] *)
Definition get_default (d : dict) (k : string) (dflt : V) : V :=
match get d k with Some v => v | None => dflt end.

(** [k in d] *)
Definition mem (d : dict) (k : string) : bool :=
match get d k with Some _ => true | None => false end.

(** [d[k] = v]: an existing key keeps its position, a new one goes last. *)
Fixpoint set (d : dict) (k : string) (v : V) : dict :=
match d with
| [] => [(k, v)]
| (k', v') :: d' =>
    if String.eqb k' k then (k', v) :: d' else (k', v') :: set d' k v
end.

(** In-place mutation of the object stored under [k]; the dictionary
  itself is not touched. *)
Fixpoint adjust (f : V -> V) (d : dict) (k : string) : dict :=
match d with
| [] => []
| (k', v) :: d' =>
    if String.eqb k' k then (k', f v) :: d' else (k', v) :: adjust f d' k
end.
End Ops.

Arguments dict : clear implicits.

End Dict.

Import Dict.

(** ** Costs: Python numbers restricted to integers, plus [float('inf')] *)

Inductive cost : Type :=
| Fin (z : Z)
| Inf.

(** [cost_to_neighbor + neighbor_cost], the link cost being finite. *)
Definition cost_add (c : Z) (k : cost) : cost :=
  match k with
  | Fin z => Fin (c + z)
  | Inf => Inf
  end.

(** [a < b] *)
Definition cost_ltb (a b : cost) : bool :=
  match a, b with
  | Fin x, Fin y => x <? y
  | Fin _, Inf => true
  | Inf, _ => false
  end.

(** [a <= b] *)
Definition cost_leb (a b : cost) : bool := negb (cost_ltb b a).

(** ** Nodes *)

(** A routing-table entry [(cost, next_hop)]; [None] is Python's [None]. *)
Definition entry : Type := cost * option string.

Definition routing_table_t : Type := dict entry.

Record Node : Type := mkNode {
  name : string;
  neighbors : dict Z;
  routing_table : routing_table_t
}.

Definition set_routing_table (n : Node) (rt : routing_table_t) : Node :=
  mkNode (name n) (neighbors n) rt.

(** Outcome of a call that may raise [KeyError]: the state is kept in both
    cases, as mutation happens in place. *)
Inductive result (S A : Type) : Type :=
| Ok (s : S) (a : A)
| Raise (s : S).

Arguments Ok {S A} s a.
Arguments Raise {S A} s.

Definition add_neighbor (n : Node) (neighbor : string) (c : Z) : Node :=
  mkNode (name n)
         (set (neighbors n) neighbor c)
         (set (routing_table n) neighbor (Fin c, Some neighbor)).

Definition init_step (self : string) (rt : routing_table_t) (node : string)
  : routing_table_t :=
  if negb (String.eqb node self) && negb (mem rt node)
  then set rt node (Inf, None)
  else rt.

Definition initialize_routing_table (n : Node) (all_nodes : list string) : Node :=
  let rt := fold_left (init_step (name n)) all_nodes (routing_table n) in
  set_routing_table n (set rt (name n) (Fin 0, Some (name n))).

(** [copy.deepcopy] of a dictionary of immutable tuples: the same value. *)
Definition send_routing_table (n : Node) : routing_table_t := routing_table n.

(** The current cost of a destination, a missing entry counting as
    [(inf, None)]. *)
Definition current_cost (rt : routing_table_t) (destination : string) : cost :=
  fst (get_default rt destination (Inf, None)).

(** One iteration of the loop of [update_routing_table]. *)
Definition relax_step (self : string) (cost_to_neighbor : Z) (neighbor : string)
  (acc : routing_table_t * bool) (item : string * entry) : routing_table_t * bool :=
  let '(rt, updated) := acc in
  let '(destination, (neighbor_cost, _)) := item in
  if String.eqb destination self then acc
  else
    let new_cost := cost_add cost_to_neighbor neighbor_cost in
    if cost_ltb new_cost (current_cost rt destination)
    then (set rt destination (new_cost, Some neighbor), true)
    else acc.

Definition update_routing_table (n : Node) (neighbor : string)
  (neighbor_table : routing_table_t) : result Node bool :=
  match get (neighbors n) neighbor with
  | None => Raise n
  | Some cost_to_neighbor =>
      let '(rt, updated) :=
        fold_left (relax_step (name n) cost_to_neighbor neighbor)
                  neighbor_table (routing_table n, false) in
      Ok (set_routing_table n rt) updated
  end.

(** ** Network *)

Definition Network : Type := dict Node.

Definition add_node (net : Network) (node_name : string) : Network :=
  if mem net node_name then net
  else set net node_name (mkNode node_name [] []).

(** [self.nodes[k]] cannot be missing here: [add_node] ran just before. *)
Definition add_link (net : Network) (node1 node2 : string) (c : Z) : Network :=
  let net1 := add_node (add_node net node1) node2 in
  let net2 := adjust (fun n => add_neighbor n node2 c) net1 node1 in
  adjust (fun n => add_neighbor n node1 c) net2 node2.

Definition initialize_routing_tables (net : Network) : Network :=
  let all_nodes := keys net in
  map (fun kn => (fst kn, initialize_routing_table (snd kn) all_nodes)) net.

(** Step 1 of a round: the dictionary comprehension of exported tables. *)
Definition sent_tables_of (net : Network) : dict routing_table_t :=
  fold_left (fun d nd => set d (name nd) (send_routing_table nd)) (values net) [].

(** Step 2, inner loop: [for neighbor in node.neighbors]. *)
Fixpoint relax_neighbors (sent : dict routing_table_t) (nbs : list string)
  (nd : Node) (updated : bool) : result Node bool :=
  match nbs with
  | [] => Ok nd updated
  | neighbor :: rest =>
      match get sent neighbor with
      | None => Raise nd
      | Some neighbor_table =>
          match update_routing_table nd neighbor neighbor_table with
          | Raise nd' => Raise nd'
          | Ok nd' u => relax_neighbors sent rest nd' (if u then true else updated)
          end
      end
  end.

(** Step 2, outer loop: [for node in self.nodes.values()]. *)
Fixpoint relax_nodes (sent : dict routing_table_t) (nodes : Network)
  (updated : bool) : result Network bool :=
  match nodes with
  | [] => Ok [] updated
  | (k, nd) :: rest =>
      match relax_neighbors sent (keys (neighbors nd)) nd updated with
      | Raise nd' => Raise ((k, nd') :: rest)
      | Ok nd' u =>
          match relax_nodes sent rest u with
          | Raise rest' => Raise ((k, nd') :: rest')
          | Ok rest' u' => Ok ((k, nd') :: rest') u'
          end
      end
  end.

(** One pass of the body of [while True], printing left out. *)
Definition round (net : Network) : result Network bool :=
  relax_nodes (sent_tables_of net) net false.

Inductive run : Type :=
| Converged (net : Network) (iteration : nat)
| Aborted (net : Network)
| OutOfFuel (net : Network).

Fixpoint dvr_loop (fuel : nat) (iteration : nat) (net : Network) : run :=
  match fuel with
  | O => OutOfFuel net
  | S fuel' =>
      match round net with
      | Raise net' => Aborted net'
      | Ok net' updated =>
          if updated then dvr_loop fuel' (S iteration) net'
          else Converged net' iteration
      end
  end.

Definition distance_vector_routing (fuel : nat) (net : Network) : run :=
  dvr_loop fuel 0%nat (initialize_routing_tables net).

(** ** Topology construction: the calls that populate a [Network()] *)

Inductive op : Type :=
| AddNode (n : string)
| AddLink (a b : string) (c : Z).

Definition apply_op (net : Network) (o : op) : Network :=
  match o with
  | AddNode n => add_node net n
  | AddLink a b c => add_link net a b c
  end.

Definition build (ops : list op) : Network := fold_left apply_op ops [].

Definition op_cost_ok (ok : Z -> bool) (o : op) : bool :=
  match o with
  | AddNode _ => true
  | AddLink _ _ c => ok c
  end.

Definition costs_positive (ops : list op) : bool :=
  forallb (op_cost_ok (fun c => 0 <? c)) ops.

Definition costs_nonnegative (ops : list op) : bool :=
  forallb (op_cost_ok (fun c => 0 <=? c)) ops.

(** The topology of [main]. *)
Definition main_ops : list op :=
  [AddLink "A" "B" 1; AddLink "A" "C" 4; AddLink "B" "C" 2;
   AddLink "B" "D" 5; AddLink "C" "D" 1].

Definition table_of (net : Network) (a : string) : routing_table_t :=
  match get net a with
  | Some nd => routing_table nd
  | None => []
  end.

Definition final_tables (r : run) : list (string * routing_table_t) :=
  match r with
  | Converged net _ => map (fun kn => (fst kn, routing_table (snd kn))) net
  | _ => []
  end.

(** ** The weighted graph of a network and its shortest paths *)

(** The cost of the link from [a] to [b], as [a] records it. *)
Definition link (net : Network) (a b : string) : option Z :=
  match get net a with
  | Some nd => get (neighbors nd) b
  | None => None
  end.

(** Cost of the walk that leaves [a] and visits [hops] in turn. *)
Fixpoint path_cost (net : Network) (a : string) (hops : list string) : option Z :=
  match hops with
  | [] => Some 0
  | n :: hops' =>
      match link net a n, path_cost net n hops' with
      | Some c, Some d => Some (c + d)
      | _, _ => None
      end
  end.

Definition is_path (net : Network) (a : string) (hops : list string)
  (b : string) (d : Z) : Prop :=
  path_cost net a hops = Some d /\ last hops a = b.

Definition reachable (net : Network) (a b : string) : Prop :=
  exists hops d, is_path net a hops b d.

(** [k] is the true shortest-path cost from [a] to [b]: the least cost of a
    walk, or infinity when there is none. *)
Definition shortest_path_cost (net : Network) (a b : string) (k : cost) : Prop :=
  match k with
  | Fin d =>
      (exists hops, is_path net a hops b d) /\
      (forall hops d', is_path net a hops b d' -> d <= d')
  | Inf => ~ reachable net a b
  end.

(** [a, n, ...] is a shortest path from [a] to [b] that visits no node
    twice and whose first hop is [n]. *)
Definition on_shortest_path (net : Network) (a n b : string) : Prop :=
  exists hops d,
    is_path net a (n :: hops) b d /\
    shortest_path_cost net a b (Fin d) /\
    NoDup (a :: n :: hops).

(** ** Object store: routing tables as mutable objects with identity *)

Module Heap.

Definition loc : Type := nat.

(** The dictionaries allocated so far, by address. *)
Definition store : Type := list routing_table_t.

Record HNode : Type := mkHNode {
  hname : string;
  hneighbors : dict Z;
  hrouting_table : loc
}.

Definition read (st : store) (l : loc) : routing_table_t := nth l st [].

Fixpoint write (st : store) (l : loc) (rt : routing_table_t) : store :=
  match st, l with
  | [], _ => []
  | _ :: st', O => rt :: st'
  | x :: st', S l' => x :: write st' l' rt
  end.

(** [copy.deepcopy(d)]: a new dictionary object; keys and entries are
    immutable strings and tuples, so nothing below it needs copying. *)
Definition deepcopy (st : store) (l : loc) : store * loc :=
  (st ++ [read st l], List.length st).

Definition send_routing_table (st : store) (nd : HNode) : store * loc :=
  deepcopy st (hrouting_table nd).

(** [neighbor_table] is passed by reference.  Iterating over its items
    while [self.routing_table] is assigned to reads every item before the
    only assignment that could touch it, so the items are those at entry. *)
Definition update_routing_table (st : store) (nd : HNode) (neighbor : string)
  (neighbor_table : loc) : result store bool :=
  match get (hneighbors nd) neighbor with
  | None => Raise st
  | Some cost_to_neighbor =>
      let '(rt, updated) :=
        fold_left (relax_step (hname nd) cost_to_neighbor neighbor)
                  (read st neighbor_table)
                  (read st (hrouting_table nd), false) in
      Ok (write st (hrouting_table nd) rt) updated
  end.

Definition state_of {A : Type} (r : result store A) : store :=
  match r with
  | Ok s _ => s
  | Raise s => s
  end.

(** A sequence of later [update_routing_table] calls on the same node. *)
Definition updates (st : store) (nd : HNode) (calls : list (string * loc)) : store :=
  fold_left (fun s call => state_of (update_routing_table s nd (fst call) (snd call)))
            calls st.

(** The node as a value: its table read from the store. *)
Definition abs (st : store) (nd : HNode) : Node :=
  mkNode (hname nd) (hneighbors nd) (read st (hrouting_table nd)).

End Heap.

(** ** Progress measure of the convergence loop *)

Definition is_inf (k : cost) : bool :=
  match k with Inf => true | Fin _ => false end.

Definition fin_part (k : cost) : Z :=
  match k with Fin z => z | Inf => 0 end.

(** Over the destinations [U]: how many are still at infinity, and the sum
    of the finite costs. *)
Definition inf_count (U : list string) (rt : routing_table_t) : nat :=
  List.length (filter (fun d => is_inf (current_cost rt d)) U).

Definition fin_sum (U : list string) (rt : routing_table_t) : Z :=
  fold_right Z.add 0 (map (fun d => fin_part (current_cost rt d)) U).

Definition net_inf_count (U : list string) (net : Network) : nat :=
  fold_right Nat.add 0%nat (map (fun kn => inf_count U (routing_table (snd kn))) net).

Definition net_fin_sum (U : list string) (net : Network) : Z :=
  fold_right Z.add 0 (map (fun kn => fin_sum U (routing_table (snd kn))) net).

(** A sequence of [update_routing_table] calls on one node, a failed call
    leaving the node as it was. *)
Definition node_state {A : Type} (r : result Node A) : Node :=
  match r with
  | Ok s _ => s
  | Raise s => s
  end.

Definition updates (n : Node) (calls : list (string * routing_table_t)) : Node :=
  fold_left (fun nd call => node_state (update_routing_table nd (fst call) (snd call)))
            calls n.

(** Keys are unique, as in every Python dictionary. *)
Fixpoint nodupb (l : list string) : bool :=
  match l with
  | [] => true
  | x :: l' => negb (existsb (String.eqb x) l') && nodupb l'
  end.

(** What a call of [update_routing_table] leaves under destination [d],
    read off the neighbor's table [t] and the table [rt] at entry. *)
Definition relaxed_entry (self : string) (c : Z) (neighbor : string)
  (t rt : routing_table_t) (d : string) : option entry :=
  match get t d with
  | Some (neighbor_cost, _) =>
      if String.eqb d self then get rt d
      else if cost_ltb (cost_add c neighbor_cost) (current_cost rt d)
           then Some (cost_add c neighbor_cost, Some neighbor)
           else get rt d
  | None => get rt d
  end.

(** Node [A] of [main] after initialisation, and the table [B] sends it
    in the first round. *)
Definition example_node : Node :=
  mkNode "A" [("B", 1); ("C", 4)]
         [("B", (Fin 1, Some "B")); ("C", (Fin 4, Some "C"));
          ("D", (Inf, None)); ("A", (Fin 0, Some "A"))].

Definition example_table : routing_table_t :=
  [("A", (Fin 1, Some "A")); ("C", (Fin 2, Some "C"));
   ("D", (Fin 5, Some "D")); ("B", (Fin 0, Some "B"))].

(** The steps a node takes during the relax phase of a round: successful
    [update_routing_table] calls fed with tables from [sent]. *)
Inductive node_steps (sent : dict routing_table_t) : Node -> Node -> Prop :=
| steps_done nd : node_steps sent nd nd
| steps_call nd neighbor neighbor_table nd1 u nd2 :
    get sent neighbor = Some neighbor_table ->
    update_routing_table nd neighbor neighbor_table = Ok nd1 u ->
    node_steps sent nd1 nd2 ->
    node_steps sent nd nd2.

(** A store with the table of [example_node] at address 0 and the table
    sent by [B] at address 1. *)
Definition example_store : Heap.store :=
  [routing_table example_node; example_table].

Definition example_hnode : Heap.HNode :=
  Heap.mkHNode "A" (neighbors example_node) 0%nat.

(** ** Invariants of a network and of its routing tables *)

(** The entry [add_neighbor] writes for a link. *)
Definition seed_entry (kc : string * Z) : string * entry :=
  (fst kc, (Fin (snd kc), Some (fst kc))).

(** What the construction calls guarantee: unique node names, every node
    stored under its name, neighbors that are nodes, one link per neighbor
    with an accepted cost, and a table holding the direct links only. *)
Record wf_topology (ok : Z -> bool) (net : Network) : Prop := {
  wf_keys : NoDup (keys net);
  wf_names : forall k nd, In (k, nd) net -> name nd = k;
  wf_nbrs : forall k nd nb c,
      In (k, nd) net -> In (nb, c) (neighbors nd) -> In nb (keys net) /\ ok c = true;
  wf_nbr_keys : forall k nd, In (k, nd) net -> NoDup (keys (neighbors nd));
  wf_seeded : forall k nd,
      In (k, nd) net -> routing_table nd = map seed_entry (neighbors nd)
}.

(** [cur] has the nodes and links of [G], whatever its tables hold. *)
Definition topo_eq (G cur : Network) : Prop :=
  Forall2 (fun g c => fst c = fst g /\ name (snd c) = name (snd g) /\
                      neighbors (snd c) = neighbors (snd g)) G cur.

(** An entry of the table of [a] for destination [b] is backed by the
    graph: a finite cost is the cost of a walk that starts with the
    recorded next hop, an infinite one has no next hop. *)
Definition sound_entry (G : Network) (a b : string) (e : entry) : Prop :=
  match e with
  | (Inf, h) => h = None
  | (Fin d, h) =>
      (a = b /\ d = 0 /\ h = Some a) \/
      (a <> b /\ exists n hops, h = Some n /\ is_path G a (n :: hops) b d)
  end.

Record table_ok (G : Network) (a : string) (rt : routing_table_t) : Prop := {
  tbl_sound : forall b e, In (b, e) rt -> In b (keys G) /\ sound_entry G a b e;
  tbl_self : get rt a = Some (Fin 0, Some a);
  tbl_full : forall b, In b (keys G) -> In b (keys rt)
}.

Definition tables_ok (G cur : Network) : Prop :=
  forall k nd, In (k, nd) cur -> table_ok G k (routing_table nd).

(** State invariant of the convergence loop over the graph [G]. *)
Definition good (G cur : Network) : Prop := topo_eq G cur /\ tables_ok G cur.

(** Lexicographic order on the progress measure. *)
Definition lex_lt (m m' : nat * Z) : Prop :=
  (fst m < fst m')%nat \/ (fst m = fst m' /\ snd m < snd m').

Definition lex_le (m m' : nat * Z) : Prop :=
  (fst m < fst m')%nat \/ (fst m = fst m' /\ snd m <= snd m').

Definition measure_add (m m' : nat * Z) : nat * Z :=
  ((fst m + fst m')%nat, snd m + snd m').

Definition table_measure (U : list string) (rt : routing_table_t) : nat * Z :=
  (inf_count U rt, fin_sum U rt).

Definition net_measure (U : list string) (net : Network) : nat * Z :=
  (net_inf_count U net, net_fin_sum U net).

(** The tables [main] converges to. *)
Definition main_converged : Network :=
  Eval vm_compute in
    match distance_vector_routing 3 (build main_ops) with
    | Converged net _ => net
    | _ => []
    end.

(** Two links that do not meet. *)
Definition split_ops : list op := [AddLink "A" "B" 1; AddLink "C" "D" 2].

(** The reading under which every recorded next hop, the node's own entry
    included, is a neighbor on a shortest path. *)
Definition every_next_hop_is_neighbor (ops : list op) : Prop :=
  forall fuel net' it,
    distance_vector_routing fuel (build ops) = Converged net' it ->
    forall a b, In a (keys (build ops)) -> In b (keys (build ops)) ->
    exists k n c,
      get (table_of net' a) b = Some (k, Some n) /\
      shortest_path_cost (build ops) a b k /\
      link (build ops) a n = Some c /\
      on_shortest_path (build ops) a n b.

(** ** States of a run and bounds on what they hold *)

(** The network a run leaves, however it ended. *)
Definition run_network (r : run) : Network :=
  match r with
  | Converged net _ => net
  | Aborted net => net
  | OutOfFuel net => net
  end.

(** No table of the network lists a destination twice. *)
Definition tables_nodup (cur : Network) : Prop :=
  forall k nd, In (k, nd) cur -> NoDup (keys (routing_table nd)).

(** Every walk of [G] with at most [k] links is matched by the table of
    its source: the recorded cost is no more than the cost of the walk. *)
Definition hop_bounded (G : Network) (k : nat) (cur : Network) : Prop :=
  forall a hops b d,
    In a (keys G) -> (List.length hops <= k)%nat -> is_path G a hops b d ->
    cost_leb (current_cost (table_of cur a) b) (Fin d) = true.

(** The state a call leaves, whether it returned or raised. *)
Definition result_state {S A : Type} (r : result S A) : S :=
  match r with
  | Ok s _ => s
  | Raise s => s
  end.

(** * Facts about dictionaries *)

Section DictFacts.
Context {V : Type}.
Implicit Types (d : dict V) (k : string) (v : V).

Lemma get_set_eq d k v : get (set d k v) k = Some v.
Proof.
  induction d as [|[k' v'] d IH]; simpl.
  - now rewrite String.eqb_refl.
  - destruct (String.eqb k' k) eqn:E; simpl; rewrite E; auto.
Qed.

Lemma get_set_neq d k k' v : k <> k' -> get (set d k v) k' = get d k'.
Proof.
  intros Hne. induction d as [|[k0 v0] d IH]; simpl.
  - apply String.eqb_neq in Hne. now rewrite Hne.
  - destruct (String.eqb k0 k) eqn:E; simpl.
    + apply String.eqb_eq in E. subst k0.
      apply String.eqb_neq in Hne. now rewrite Hne.
    + destruct (String.eqb k0 k'); auto.
Qed.

Lemma get_set d k k' v :
  get (set d k v) k' = if String.eqb k k' then Some v else get d k'.
Proof.
  destruct (String.eqb_spec k k') as [->|Hne].
  - apply get_set_eq.
  - now apply get_set_neq.
Qed.

Lemma get_in d k v : get d k = Some v -> In (k, v) d.
Proof.
  induction d as [|[k' v'] d IH]; simpl; [discriminate|].
  destruct (String.eqb_spec k' k) as [->|Hne].
  - intros [= ->]. now left.
  - intros H. right. auto.
Qed.

Lemma get_some_keys d k v : get d k = Some v -> In k (keys d).
Proof.
  intros H. apply get_in in H. unfold keys.
  change k with (fst (k, v)). now apply in_map.
Qed.

Lemma get_none_keys d k : get d k = None <-> ~ In k (keys d).
Proof.
  induction d as [|[k' v'] d IH]; simpl.
  - tauto.
  - destruct (String.eqb_spec k' k) as [->|Hne].
    + split; [discriminate|]. intros H. exfalso. apply H. now left.
    + rewrite IH. tauto.
Qed.

Lemma keys_get d k : In k (keys d) -> exists v, get d k = Some v.
Proof.
  intros H. destruct (get d k) as [v|] eqn:E; [now exists v|].
  apply get_none_keys in E. contradiction.
Qed.

Lemma mem_keys d k : mem d k = true <-> In k (keys d).
Proof.
  unfold mem. split.
  - destruct (get d k) eqn:E; [|discriminate]. intros _.
    eapply get_some_keys; eauto.
  - intros H. apply keys_get in H as [v ->]. reflexivity.
Qed.

Lemma in_get_nodup d k v : NoDup (keys d) -> In (k, v) d -> get d k = Some v.
Proof.
  induction d as [|[k' v'] d IH]; simpl; [tauto|].
  intros Hnd [Heq|Hin].
  - injection Heq as -> ->. now rewrite String.eqb_refl.
  - inversion Hnd as [|? ? Hnotin Hnd']; subst.
    destruct (String.eqb_spec k' k) as [->|Hne].
    + exfalso. apply Hnotin. change k with (fst (k, v)). now apply in_map.
    + auto.
Qed.

Lemma keys_set_mem d k v : In k (keys d) -> keys (set d k v) = keys d.
Proof.
  induction d as [|[k' v'] d IH]; simpl; [tauto|].
  destruct (String.eqb_spec k' k) as [->|Hne]; simpl; [reflexivity|].
  intros [H|H]; [contradiction|]. now rewrite IH.
Qed.

Lemma keys_set_new d k v : ~ In k (keys d) -> keys (set d k v) = keys d ++ [k].
Proof.
  induction d as [|[k' v'] d IH]; simpl; [reflexivity|].
  intros H. destruct (String.eqb_spec k' k) as [->|Hne]; simpl.
  - exfalso. apply H. now left.
  - rewrite IH; [reflexivity|]. tauto.
Qed.

Lemma in_keys_set d k k' v : In k' (keys (set d k v)) <-> k' = k \/ In k' (keys d).
Proof.
  rewrite <- !mem_keys. unfold mem. rewrite get_set.
  destruct (String.eqb_spec k k') as [->|Hne].
  - tauto.
  - split; [tauto|]. intros [->|H]; [contradiction|assumption].
Qed.

Lemma nodup_keys_set d k v : NoDup (keys d) -> NoDup (keys (set d k v)).
Proof.
  intros Hnd.
  destruct (in_dec string_dec k (keys d)) as [Hin|Hnin].
  - now rewrite keys_set_mem.
  - rewrite keys_set_new by assumption.
    apply NoDup_app; [assumption | repeat constructor; simpl; tauto |].
    intros x Hx [<-|[]]. contradiction.
Qed.

Lemma keys_adjust (f : V -> V) d k : keys (adjust f d k) = keys d.
Proof.
  induction d as [|[k' v'] d IH]; simpl; [reflexivity|].
  destruct (String.eqb k' k); simpl; [reflexivity|now rewrite IH].
Qed.

Lemma get_adjust (f : V -> V) d k k' :
  get (adjust f d k) k' =
  if String.eqb k k' then option_map f (get d k') else get d k'.
Proof.
  induction d as [|[k0 v0] d IH]; simpl.
  - now destruct (String.eqb k k').
  - destruct (String.eqb_spec k0 k) as [->|Hne]; simpl.
    + destruct (String.eqb k k'); reflexivity.
    + rewrite IH. destruct (String.eqb_spec k0 k') as [->|Hne'].
      * apply String.eqb_neq in Hne. rewrite String.eqb_sym in Hne.
        now rewrite Hne.
      * reflexivity.
Qed.

Lemma in_set d k v k' v' :
  In (k', v') (set d k v) -> (k' = k /\ v' = v) \/ In (k', v') d.
Proof.
  induction d as [|[k0 v0] d IH]; simpl.
  - intros [[= <- <-]|[]]. auto.
  - destruct (String.eqb_spec k0 k) as [->|Hne]; simpl.
    + intros [[= <- <-]|H]; auto.
    + intros [H|H]; auto. apply IH in H. tauto.
Qed.

Lemma in_adjust (f : V -> V) d k k' v' :
  In (k', v') (adjust f d k) ->
  In (k', v') d \/ (k' = k /\ exists v, In (k, v) d /\ v' = f v).
Proof.
  induction d as [|[k0 v0] d IH]; simpl; [tauto|].
  destruct (String.eqb_spec k0 k) as [->|Hne]; simpl.
  - intros [[= <- <-]|H]; eauto 6.
  - intros [H|H]; auto. apply IH in H as [H|[-> [v [Hv ->]]]]; eauto 6.
Qed.

Lemma in_set_nodup d k v k' v' :
  NoDup (keys d) -> In (k', v') (set d k v) ->
  (k' = k /\ v' = v) \/ (k' <> k /\ In (k', v') d).
Proof.
  induction d as [|[k0 v0] d IH]; simpl; intros Hnd.
  - intros [[= <- <-]|[]]. auto.
  - inversion Hnd as [|? ? Hnotin Hnd']; subst.
    destruct (String.eqb_spec k0 k) as [->|Hne]; simpl.
    + intros [[= <- <-]|H]; auto. right. split; [|auto].
      intros ->. apply Hnotin. change k with (fst (k, v')). now apply in_map.
    + intros [[= <- <-]|H]; auto. apply IH in H; tauto.
Qed.

Lemma in_keys d k v : In (k, v) d -> In k (keys d).
Proof. intros H. unfold keys. change k with (fst (k, v)). now apply in_map. Qed.

End DictFacts.

Lemma map_set {V W : Type} (g : string * V -> W) (d : dict V) k v :
  map (fun kv => (fst kv, g kv)) (set d k v) =
  set (map (fun kv => (fst kv, g kv)) d) k (g (k, v)).
Proof.
  induction d as [|[k0 v0] d IH]; simpl; [reflexivity|].
  destruct (String.eqb_spec k0 k) as [->|Hne]; simpl.
  - reflexivity.
  - now rewrite IH.
Qed.

Lemma keys_map {V W : Type} (g : string * V -> W) (d : dict V) :
  keys (map (fun kv => (fst kv, g kv)) d) = keys d.
Proof. unfold keys. rewrite map_map. reflexivity. Qed.

Lemma nodupb_NoDup (l : list string) : nodupb l = true <-> NoDup l.
Proof.
  induction l as [|x l IH]; simpl.
  - split; [constructor|reflexivity].
  - rewrite andb_true_iff, negb_true_iff, IH. split.
    + intros [Hx Hl]. constructor; [|assumption].
      intros Hin. assert (existsb (String.eqb x) l = true); [|congruence].
      apply existsb_exists. exists x. split; [assumption|apply String.eqb_refl].
    + intros H. inversion H as [|? ? Hx Hl]; subst. split; [|assumption].
      destruct (existsb (String.eqb x) l) eqn:E; [|reflexivity].
      apply existsb_exists in E as [y [Hy Hxy]]. apply String.eqb_eq in Hxy.
      subst y. contradiction.
Qed.

(** * Costs *)

Ltac cost_cases :=
  repeat match goal with
         | k : cost |- _ => destruct k
         end;
  unfold cost_leb in *; simpl in *;
  repeat match goal with
         | H : (_ <? _) = true |- _ => apply Z.ltb_lt in H
         | H : (_ <? _) = false |- _ => apply Z.ltb_ge in H
         | H : negb _ = true |- _ => apply negb_true_iff in H
         | H : negb _ = false |- _ => apply negb_false_iff in H
         | |- negb _ = true => apply negb_true_iff
         | |- negb _ = false => apply negb_false_iff
         | |- (_ <? _) = true => apply Z.ltb_lt
         | |- (_ <? _) = false => apply Z.ltb_ge
         end;
  try congruence; try lia.

Lemma cost_ltb_trans a b c :
  cost_ltb a b = true -> cost_ltb b c = true -> cost_ltb a c = true.
Proof. intros; cost_cases. Qed.

Lemma cost_ltb_irrefl a : cost_ltb a a = false.
Proof. cost_cases. Qed.

Lemma cost_ltb_leb a b : cost_ltb a b = true -> cost_leb a b = true.
Proof. intros; cost_cases. Qed.

Lemma cost_leb_refl a : cost_leb a a = true.
Proof. cost_cases. Qed.

Lemma cost_leb_trans a b c :
  cost_leb a b = true -> cost_leb b c = true -> cost_leb a c = true.
Proof. intros; cost_cases. Qed.

Lemma cost_ltb_leb_trans a b c :
  cost_ltb a b = true -> cost_leb b c = true -> cost_ltb a c = true.
Proof. intros; cost_cases. Qed.

(** * One call of [update_routing_table] *)

Lemma current_cost_get rt rt' d :
  get rt' d = get rt d -> current_cost rt' d = current_cost rt d.
Proof. unfold current_cost, get_default. now intros ->. Qed.

Lemma current_cost_entry (rt : routing_table_t) d k h :
  get rt d = Some (k, h) -> current_cost rt d = k.
Proof. unfold current_cost, get_default. now intros ->. Qed.

Lemma current_cost_lt_get rt rt' d :
  cost_ltb (current_cost rt' d) (current_cost rt d) = true ->
  get rt' d <> get rt d.
Proof.
  intros H E. apply current_cost_get in E. rewrite E in H.
  now rewrite cost_ltb_irrefl in H.
Qed.

Section Relax.
Variables (self : string) (c : Z) (nb : string).

Local Abbreviation step := (relax_step self c nb).

(** The two ways a single iteration can go. *)
Lemma relax_step_cases rt u k0 nc h :
  (step (rt, u) (k0, ((nc, h) : entry)) = (rt, u) /\
   (k0 = self \/ cost_ltb (cost_add c nc) (current_cost rt k0) = false)) \/
  (step (rt, u) (k0, ((nc, h) : entry)) =
     (set rt k0 (cost_add c nc, Some nb), true) /\
   k0 <> self /\ cost_ltb (cost_add c nc) (current_cost rt k0) = true).
Proof.
  unfold relax_step.
  destruct (String.eqb_spec k0 self) as [->|Hne]; [left; auto|].
  destruct (cost_ltb (cost_add c nc) (current_cost rt k0)) eqn:E.
  - right. auto.
  - left. auto.
Qed.

(** Every entry is either kept, or now routes through the neighbor at a
    strictly smaller cost; only destinations of the neighbor's table
    other than the node itself can change. *)
Lemma fold_relax_entry t : forall rt u rt' u',
  fold_left step t (rt, u) = (rt', u') ->
  forall d,
    get rt' d = get rt d \/
    (In d (keys t) /\ d <> self /\
     exists k, get rt' d = Some (k, Some nb) /\
               cost_ltb k (current_cost rt d) = true).
Proof.
  induction t as [|[k0 [nc h]] t IH]; cbn [fold_left]; intros rt u rt' u' Hf d.
  - injection Hf as <- <-. now left.
  - destruct (relax_step_cases rt u k0 nc h) as [[E _]|[E [Hne Hlt]]];
      rewrite E in Hf;
      destruct (IH _ _ _ _ Hf d) as [Heq|[Hin [Hd [k [Hk Hlk]]]]].
    + now left.
    + right. repeat split; simpl; auto. eauto.
    + destruct (String.eqb_spec k0 d) as [->|Hkd].
      * right. rewrite Heq, get_set_eq. repeat split; simpl; auto. eauto.
      * left. rewrite Heq. now apply get_set_neq.
    + right. repeat split; simpl; auto. exists k. split; [assumption|].
      destruct (String.eqb_spec k0 d) as [->|Hkd].
      * rewrite (current_cost_entry _ _ _ _ (get_set_eq rt d _)) in Hlk.
        eapply cost_ltb_trans; eauto.
      * rewrite (current_cost_get rt (set rt k0 (cost_add c nc, Some nb)) d) in Hlk;
          [assumption|]. now apply get_set_neq.
Qed.

Lemma fold_relax_cost_le t rt u rt' u' :
  fold_left step t (rt, u) = (rt', u') ->
  forall d, cost_leb (current_cost rt' d) (current_cost rt d) = true.
Proof.
  intros Hf d.
  destruct (fold_relax_entry t _ _ _ _ Hf d) as [Heq|[_ [_ [k [Hk Hlt]]]]].
  - rewrite (current_cost_get _ _ _ Heq). apply cost_leb_refl.
  - rewrite (current_cost_entry _ _ _ _ Hk). now apply cost_ltb_leb.
Qed.

(** A call that reports no update fired no iteration and left the table
    as it was. *)
Lemma fold_relax_false t : forall rt u rt',
  fold_left step t (rt, u) = (rt', false) ->
  u = false /\ rt' = rt /\
  Forall (fun item =>
            fst item = self \/
            cost_ltb (cost_add c (fst (snd item))) (current_cost rt (fst item)) = false) t.
Proof.
  induction t as [|[k0 [nc h]] t IH]; cbn [fold_left]; intros rt u rt' Hf.
  - injection Hf as <- <-. auto.
  - destruct (relax_step_cases rt u k0 nc h) as [[E Hc]|[E _]];
      rewrite E in Hf; apply IH in Hf as [Hu [Hrt Hall]].
    + auto.
    + discriminate.
Qed.

(** A call that reports an update lowered some cost. *)
Lemma fold_relax_true t : forall rt u rt',
  fold_left step t (rt, u) = (rt', true) ->
  u = true \/
  exists d, In d (keys t) /\ d <> self /\
            cost_ltb (current_cost rt' d) (current_cost rt d) = true.
Proof.
  induction t as [|[k0 [nc h]] t IH]; cbn [fold_left]; intros rt u rt' Hf.
  - injection Hf as <- <-. now left.
  - destruct (relax_step_cases rt u k0 nc h) as [[E Hc]|[E [Hne Hlt]]];
      rewrite E in Hf.
    + destruct (IH _ _ _ Hf) as [Hu|[d [Hin [Hd Hlt]]]]; [now left|].
      right. exists d. simpl. auto.
    + right. exists k0. repeat split; simpl; auto.
      pose proof (fold_relax_cost_le _ _ _ _ _ Hf k0) as Hle.
      rewrite (current_cost_entry _ _ _ _ (get_set_eq rt k0 _)) in Hle.
      revert Hle Hlt. generalize (current_cost rt' k0) (current_cost rt k0).
      generalize (cost_add c nc). intros; cost_cases.
Qed.

(** With unique keys in the neighbor's table, destinations are
    independent of each other. *)
Lemma fold_relax_get t : NoDup (keys t) -> forall rt u rt' u',
  fold_left step t (rt, u) = (rt', u') ->
  forall d, get rt' d = relaxed_entry self c nb t rt d.
Proof.
  induction t as [|[k0 [nc h]] t IH]; cbn [fold_left]; intros Hnd rt u rt' u' Hf d.
  - injection Hf as <- <-. reflexivity.
  - inversion Hnd as [|? ? Hnotin Hnd']; subst.
    apply get_none_keys in Hnotin.
    destruct (relax_step_cases rt u k0 nc h) as [[E Hc]|[E [Hne Hlt]]];
      rewrite E in Hf; rewrite (IH Hnd' _ _ _ _ Hf d);
      unfold relaxed_entry; cbn [get];
      destruct (String.eqb_spec k0 d) as [<-|Hkd].
    + rewrite Hnotin.
      destruct Hc as [->|Hc]; [now rewrite String.eqb_refl|].
      rewrite Hc. now destruct (String.eqb k0 self).
    + reflexivity.
    + rewrite Hnotin. apply String.eqb_neq in Hne. rewrite Hne, Hlt.
      apply get_set_eq.
    + assert (Hg : get (set rt k0 (cost_add c nc, Some nb)) d = get rt d)
        by now apply get_set_neq.
      rewrite Hg, (current_cost_get _ _ _ Hg). reflexivity.
Qed.

End Relax.

Lemma update_ok_inv n nb t n' u :
  update_routing_table n nb t = Ok n' u ->
  exists c rt',
    get (neighbors n) nb = Some c /\
    fold_left (relax_step (name n) c nb) t (routing_table n, false) = (rt', u) /\
    n' = set_routing_table n rt'.
Proof.
  unfold update_routing_table.
  destruct (get (neighbors n) nb) as [c|]; [|discriminate].
  destruct (fold_left _ t _) as [rt' u0] eqn:E.
  intros [= <- <-]. eauto.
Qed.

Lemma update_raise_inv n nb t n' :
  update_routing_table n nb t = Raise n' ->
  get (neighbors n) nb = None /\ n' = n.
Proof.
  unfold update_routing_table.
  destruct (get (neighbors n) nb) as [c|].
  - destruct (fold_left _ t _). discriminate.
  - intros [= <-]. auto.
Qed.

Lemma update_name n nb t :
  name (node_state (update_routing_table n nb t)) = name n.
Proof.
  destruct (update_routing_table n nb t) as [n' u|n'] eqn:E; simpl.
  - apply update_ok_inv in E as (c & rt' & _ & _ & ->). reflexivity.
  - apply update_raise_inv in E as [_ ->]. reflexivity.
Qed.

Lemma update_neighbors n nb t :
  neighbors (node_state (update_routing_table n nb t)) = neighbors n.
Proof.
  destruct (update_routing_table n nb t) as [n' u|n'] eqn:E; simpl.
  - apply update_ok_inv in E as (c & rt' & _ & _ & ->). reflexivity.
  - apply update_raise_inv in E as [_ ->]. reflexivity.
Qed.

Lemma update_self_entry n nb t :
  get (routing_table (node_state (update_routing_table n nb t))) (name n) =
  get (routing_table n) (name n).
Proof.
  destruct (update_routing_table n nb t) as [n' u|n'] eqn:E; simpl.
  - apply update_ok_inv in E as (c & rt' & _ & Hf & ->). simpl.
    destruct (fold_relax_entry _ _ _ _ _ _ _ _ Hf (name n))
      as [Heq|[_ [Hne _]]]; [assumption|congruence].
  - apply update_raise_inv in E as [_ ->]. reflexivity.
Qed.

Lemma updates_name calls : forall n, name (updates n calls) = name n.
Proof.
  unfold updates.
  induction calls as [|[nb t] calls IH]; simpl; intros n; [reflexivity|].
  rewrite IH. apply update_name.
Qed.

Lemma updates_self_entry calls : forall n,
  get (routing_table (updates n calls)) (name n) = get (routing_table n) (name n).
Proof.
  unfold updates.
  induction calls as [|[nb t] calls IH]; simpl; intros n; [reflexivity|].
  rewrite <- (update_name n nb t), IH, update_name. apply update_self_entry.
Qed.

Lemma initialize_self_entry n all_nodes :
  get (routing_table (initialize_routing_table n all_nodes)) (name n) =
  Some (Fin 0, Some (name n)).
Proof. unfold initialize_routing_table. simpl. apply get_set_eq. Qed.

(** C3. Self-entry invariant: once [initialize_routing_table] has run on a
    node, its table maps the node's own name to [(0, name)], and this stays
    so after any sequence of [update_routing_table] calls, with whatever
    neighbors and tables they are given. *)
Theorem self_entry_invariant (n : Node) (all_nodes : list string)
  (calls : list (string * routing_table_t)) :
  let n0 := initialize_routing_table n all_nodes in
  name (updates n0 calls) = name n /\
  get (routing_table (updates n0 calls)) (name n) = Some (Fin 0, Some (name n)).
Proof.
  intros n0. split.
  - unfold n0. now rewrite updates_name.
  - rewrite <- (initialize_self_entry n all_nodes).
    exact (updates_self_entry calls n0).
Qed.

(** C6. A neighbor that is not in the node's link set makes
    [update_routing_table] raise, and the node, its routing table
    included, is then exactly as before the call. *)
Theorem unknown_neighbor_raises (n : Node) (neighbor : string)
  (neighbor_table : routing_table_t) :
  mem (neighbors n) neighbor = false ->
  update_routing_table n neighbor neighbor_table = Raise n /\
  routing_table (node_state (update_routing_table n neighbor neighbor_table)) =
  routing_table n.
Proof.
  unfold mem, update_routing_table.
  destruct (get (neighbors n) neighbor); [discriminate|]. auto.
Qed.

Lemma unknown_neighbor_raises_witness :
  update_routing_table example_node "D" example_table = Raise example_node /\
  routing_table (node_state (update_routing_table example_node "D" example_table)) =
  routing_table example_node.
Proof. apply (unknown_neighbor_raises example_node "D" example_table). reflexivity. Defined.

(** C10. Frame of a successful [update_routing_table]: entries of
    destinations that are not keys of the neighbor's table are untouched,
    every entry that differs afterwards has the given neighbor as next hop,
    and the node's name and neighbor links are the same. *)
Theorem update_frame (n n' : Node) (neighbor : string)
  (neighbor_table : routing_table_t) (u : bool) :
  update_routing_table n neighbor neighbor_table = Ok n' u ->
  (forall d, ~ In d (keys neighbor_table) ->
             get (routing_table n') d = get (routing_table n) d) /\
  (forall d, get (routing_table n') d <> get (routing_table n) d ->
             exists k, get (routing_table n') d = Some (k, Some neighbor)) /\
  name n' = name n /\
  neighbors n' = neighbors n.
Proof.
  intros H. apply update_ok_inv in H as (c & rt' & _ & Hf & ->). simpl.
  repeat split.
  - intros d Hd.
    destruct (fold_relax_entry _ _ _ _ _ _ _ _ Hf d) as [Heq|[Hin _]];
      [assumption|contradiction].
  - intros d Hd.
    destruct (fold_relax_entry _ _ _ _ _ _ _ _ Hf d) as [Heq|(_ & _ & k & Hk & _)];
      [contradiction|eauto].
Qed.

Lemma update_frame_witness :
  (forall d, ~ In d (keys example_table) ->
     get [("B", (Fin 1, Some "B")); ("C", (Fin 3, Some "B"));
          ("D", (Fin 6, Some "B")); ("A", (Fin 0, Some "A"))] d =
     get (routing_table example_node) d) /\
  (forall d,
     get [("B", (Fin 1, Some "B")); ("C", (Fin 3, Some "B"));
          ("D", (Fin 6, Some "B")); ("A", (Fin 0, Some "A"))] d <>
     get (routing_table example_node) d ->
     exists k,
       get [("B", (Fin 1, Some "B")); ("C", (Fin 3, Some "B"));
            ("D", (Fin 6, Some "B")); ("A", (Fin 0, Some "A"))] d =
       Some (k, Some "B")) /\
  "A" = name example_node /\
  [("B", 1); ("C", 4)] = neighbors example_node.
Proof.
  apply (update_frame example_node
           (mkNode "A" [("B", 1); ("C", 4)]
                   [("B", (Fin 1, Some "B")); ("C", (Fin 3, Some "B"));
                    ("D", (Fin 6, Some "B")); ("A", (Fin 0, Some "A"))])
           "B" example_table true).
  reflexivity.
Defined.

(** C5. [update_routing_table] replaces the entry of a destination only
    when the candidate cost, link cost plus advertised cost, is strictly
    below the current cost (infinity for a missing entry); otherwise, and
    so on a tie, the entry keeps its cost and next hop; and the call
    returns [True] exactly when some entry was replaced. *)
Theorem strict_relaxation (n n' : Node) (neighbor : string)
  (neighbor_table : routing_table_t) (u : bool) (c : Z) :
  nodupb (keys neighbor_table) = true ->
  get (neighbors n) neighbor = Some c ->
  update_routing_table n neighbor neighbor_table = Ok n' u ->
  (forall d, get (routing_table n') d <> get (routing_table n) d ->
     exists nc h,
       get neighbor_table d = Some (nc, h) /\ d <> name n /\
       cost_ltb (cost_add c nc) (current_cost (routing_table n) d) = true /\
       get (routing_table n') d = Some (cost_add c nc, Some neighbor)) /\
  (forall d nc h,
     get neighbor_table d = Some (nc, h) ->
     cost_ltb (cost_add c nc) (current_cost (routing_table n) d) = false ->
     get (routing_table n') d = get (routing_table n) d) /\
  (forall d nc h,
     get neighbor_table d = Some (nc, h) ->
     cost_add c nc = current_cost (routing_table n) d ->
     get (routing_table n') d = get (routing_table n) d) /\
  (u = true <-> exists d, get (routing_table n') d <> get (routing_table n) d).
Proof.
  intros Hnd Hc H. apply nodupb_NoDup in Hnd.
  apply update_ok_inv in H as (c' & rt' & Hc' & Hf & ->).
  rewrite Hc in Hc'. injection Hc' as <-. simpl.
  pose proof (fold_relax_get _ _ _ _ Hnd _ _ _ _ Hf) as Hget.
  assert (Hkeep : forall d nc h,
            get neighbor_table d = Some (nc, h) ->
            cost_ltb (cost_add c nc) (current_cost (routing_table n) d) = false ->
            get rt' d = get (routing_table n) d).
  { intros d nc h Ht Hlt. rewrite Hget. unfold relaxed_entry.
    rewrite Ht, Hlt. now destruct (String.eqb d (name n)). }
  repeat split.
  - intros d Hd. rewrite Hget in Hd |- *. unfold relaxed_entry in *.
    destruct (get neighbor_table d) as [[nc h]|]; [|contradiction].
    exists nc, h. split; [reflexivity|].
    destruct (String.eqb_spec d (name n)) as [->|Hne]; [contradiction|].
    destruct (cost_ltb _ _); [auto|contradiction].
  - exact Hkeep.
  - intros d nc h Ht Heq. apply (Hkeep d nc h Ht).
    rewrite Heq. apply cost_ltb_irrefl.
  - intros ->. apply fold_relax_true in Hf as [Hu|[d [_ [_ Hlt]]]]; [discriminate|].
    exists d. now apply current_cost_lt_get.
  - intros [d Hd]. destruct u; [reflexivity|].
    apply fold_relax_false in Hf as [_ [-> _]]. contradiction.
Qed.

Lemma strict_relaxation_witness :
  let rt' := [("B", (Fin 1, Some "B")); ("C", (Fin 3, Some "B"));
              ("D", (Fin 6, Some "B")); ("A", (Fin 0, Some "A"))] in
  let rt := routing_table example_node in
  (forall d, get rt' d <> get rt d ->
     exists nc h,
       get example_table d = Some (nc, h) /\ d <> "A" /\
       cost_ltb (cost_add 1 nc) (current_cost rt d) = true /\
       get rt' d = Some (cost_add 1 nc, Some "B")) /\
  (forall d nc h,
     get example_table d = Some (nc, h) ->
     cost_ltb (cost_add 1 nc) (current_cost rt d) = false ->
     get rt' d = get rt d) /\
  (forall d nc h,
     get example_table d = Some (nc, h) ->
     cost_add 1 nc = current_cost rt d ->
     get rt' d = get rt d) /\
  (true = true <-> exists d, get rt' d <> get rt d).
Proof.
  apply (strict_relaxation example_node
           (mkNode "A" [("B", 1); ("C", 4)]
                   [("B", (Fin 1, Some "B")); ("C", (Fin 3, Some "B"));
                    ("D", (Fin 6, Some "B")); ("A", (Fin 0, Some "A"))])
           "B" example_table true 1); reflexivity.
Defined.

(** * The object store and exported snapshots *)

Section HeapFacts.
Lemma length_write st : forall l rt, List.length (Heap.write st l rt) = List.length st.
Proof.
  induction st as [|x st IH]; intros [|l] rt; simpl; auto.
Qed.

Lemma read_write_eq st : forall l rt,
  (l < List.length st)%nat -> Heap.read (Heap.write st l rt) l = rt.
Proof.
  unfold Heap.read.
  induction st as [|x st IH]; intros [|l] rt; simpl; try lia; auto.
  intros H. apply IH. lia.
Qed.

Lemma read_write_neq st : forall l l' rt,
  l <> l' -> Heap.read (Heap.write st l rt) l' = Heap.read st l'.
Proof.
  unfold Heap.read.
  induction st as [|x st IH]; intros [|l] [|l'] rt H; simpl; auto;
    try congruence.
Qed.

Lemma read_app_old st x l : (l < List.length st)%nat -> Heap.read (st ++ x) l = Heap.read st l.
Proof. unfold Heap.read. intros H. now rewrite app_nth1. Qed.

Lemma read_app_new st rt : Heap.read (st ++ [rt]) (List.length st) = rt.
Proof. unfold Heap.read. rewrite app_nth2, Nat.sub_diag by lia. reflexivity. Qed.

(** A call writes at the node's own table and nowhere else. *)
Lemma update_writes_own st nd nb tl l :
  l <> Heap.hrouting_table nd ->
  Heap.read (Heap.state_of (Heap.update_routing_table st nd nb tl)) l = Heap.read st l.
Proof.
  intros Hl. unfold Heap.update_routing_table.
  destruct (get (Heap.hneighbors nd) nb) as [c|]; [|reflexivity].
  destruct (fold_left _ _ _) as [rt u]. simpl.
  apply read_write_neq. congruence.
Qed.

Lemma updates_write_own nd calls : forall st l,
  l <> Heap.hrouting_table nd -> Heap.read (Heap.updates st nd calls) l = Heap.read st l.
Proof.
  unfold Heap.updates.
  induction calls as [|[nb tl] calls IH]; simpl; intros st l Hl; [reflexivity|].
  rewrite IH by assumption. now apply update_writes_own.
Qed.

(** The store-level call computes what the call on values computes. *)
Lemma heap_update_refines st nd nb tl :
  (Heap.hrouting_table nd < List.length st)%nat ->
  match Heap.update_routing_table st nd nb tl,
        update_routing_table (Heap.abs st nd) nb (Heap.read st tl) with
  | Ok st' u, Ok n' u' => Heap.abs st' nd = n' /\ u = u'
  | Raise st', Raise n' => st' = st /\ n' = Heap.abs st nd
  | _, _ => False
  end.
Proof.
  intros Hl. unfold Heap.update_routing_table, update_routing_table. simpl.
  destruct (get (Heap.hneighbors nd) nb) as [c|]; [|auto].
  destruct (fold_left _ _ _) as [rt u]. split; [|reflexivity].
  unfold Heap.abs, set_routing_table. simpl. now rewrite read_write_eq.
Qed.

End HeapFacts.

(** C7. The table returned by [send_routing_table] is a new object: it
    holds the value the node's table had at export, and no later
    [update_routing_table] call on the node, nor any other assignment to the
    node's table, changes what the snapshot holds. *)
Theorem snapshot_independent (st : Heap.store) (nd : Heap.HNode) :
  (Heap.hrouting_table nd < List.length st)%nat ->
  let exported := Heap.read st (Heap.hrouting_table nd) in
  let st1 := fst (Heap.send_routing_table st nd) in
  let snapshot := snd (Heap.send_routing_table st nd) in
  snapshot <> Heap.hrouting_table nd /\
  Heap.read st1 snapshot = exported /\
  Heap.read st1 (Heap.hrouting_table nd) = exported /\
  (forall calls, Heap.read (Heap.updates st1 nd calls) snapshot = exported) /\
  (forall rt, Heap.read (Heap.write st1 (Heap.hrouting_table nd) rt) snapshot = exported).
Proof.
  intros Hl exported st1 snapshot.
  assert (Hne : snapshot <> Heap.hrouting_table nd).
  { unfold snapshot. simpl. lia. }
  assert (Hsnap : Heap.read st1 snapshot = exported).
  { unfold st1, snapshot. simpl. apply read_app_new. }
  repeat split.
  - exact Hne.
  - exact Hsnap.
  - unfold st1. simpl. now apply read_app_old.
  - intros calls. rewrite updates_write_own by assumption. exact Hsnap.
  - intros rt. rewrite read_write_neq by congruence. exact Hsnap.
Qed.

Lemma snapshot_independent_witness :
  let exported := Heap.read example_store 0%nat in
  let st1 := fst (Heap.send_routing_table example_store example_hnode) in
  let snapshot := snd (Heap.send_routing_table example_store example_hnode) in
  snapshot <> 0%nat /\
  Heap.read st1 snapshot = exported /\
  Heap.read st1 0%nat = exported /\
  (forall calls, Heap.read (Heap.updates st1 example_hnode calls) snapshot = exported) /\
  (forall rt, Heap.read (Heap.write st1 0%nat rt) snapshot = exported).
Proof.
  apply (snapshot_independent example_store example_hnode). simpl. lia.
Defined.

(** The exported snapshot does go stale: after the first call of [main]
    the node's table has moved on and the snapshot has not. *)
Example snapshot_stale :
  let st1 := fst (Heap.send_routing_table example_store example_hnode) in
  let st2 := Heap.updates st1 example_hnode [("B", 1%nat)] in
  Heap.read st2 2%nat = routing_table example_node /\
  Heap.read st2 0%nat =
    [("B", (Fin 1, Some "B")); ("C", (Fin 3, Some "B"));
     ("D", (Fin 6, Some "B")); ("A", (Fin 0, Some "A"))].
Proof. split; reflexivity. Qed.

(** * Topology construction *)

Section Construction.
Variable ok : Z -> bool.

Lemma wf_empty : wf_topology ok [].
Proof. constructor; simpl; try tauto. constructor. Qed.

Lemma wf_add_node net n : wf_topology ok net -> wf_topology ok (add_node net n).
Proof.
  intros W. unfold add_node. destruct (mem net n) eqn:E; [assumption|].
  constructor.
  - apply nodup_keys_set, W.
  - intros k nd H. apply in_set in H as [[-> ->]|H]; [reflexivity|].
    eapply wf_names; eauto.
  - intros k nd nb c H Hnb. apply in_set in H as [[-> ->]|H]; [contradiction|].
    destruct (wf_nbrs _ _ W _ _ _ _ H Hnb) as [Hin Hok]. split; [|assumption].
    apply in_keys_set. auto.
  - intros k nd H. apply in_set in H as [[-> ->]|H]; [constructor|].
    eapply wf_nbr_keys; eauto.
  - intros k nd H. apply in_set in H as [[-> ->]|H]; [reflexivity|].
    eapply wf_seeded; eauto.
Qed.

Lemma keys_add_node net n a : In a (keys net) -> In a (keys (add_node net n)).
Proof.
  unfold add_node. destruct (mem net n); [auto|].
  intros H. apply in_keys_set. auto.
Qed.

Lemma keys_add_node_self net n : In n (keys (add_node net n)).
Proof.
  unfold add_node. destruct (mem net n) eqn:E.
  - now apply mem_keys.
  - apply in_keys_set. auto.
Qed.

Lemma wf_add_neighbor net a nb c :
  wf_topology ok net -> In nb (keys net) -> ok c = true ->
  wf_topology ok (adjust (fun n => add_neighbor n nb c) net a).
Proof.
  intros W Hnb Hc. constructor.
  - rewrite keys_adjust. apply W.
  - intros k nd H. apply in_adjust in H as [H|[-> [nd0 [H ->]]]].
    + eapply wf_names; eauto.
    + simpl. eapply wf_names; eauto.
  - intros k nd x cx H Hx. rewrite keys_adjust.
    apply in_adjust in H as [H|[-> [nd0 [H ->]]]].
    + eapply wf_nbrs; eauto.
    + simpl in Hx. apply in_set in Hx as [[-> ->]|Hx]; [auto|].
      eapply wf_nbrs; eauto.
  - intros k nd H. apply in_adjust in H as [H|[-> [nd0 [H ->]]]].
    + eapply wf_nbr_keys; eauto.
    + simpl. apply nodup_keys_set. eapply wf_nbr_keys; eauto.
  - intros k nd H. apply in_adjust in H as [H|[-> [nd0 [H ->]]]].
    + eapply wf_seeded; eauto.
    + simpl. rewrite (wf_seeded _ _ W _ _ H).
      symmetry. apply (map_set (fun kc => (Fin (snd kc), Some (fst kc)))).
Qed.

Lemma wf_add_link net a b c :
  wf_topology ok net -> ok c = true -> wf_topology ok (add_link net a b c).
Proof.
  intros W Hc. unfold add_link.
  apply wf_add_neighbor; [apply wf_add_neighbor| |]; auto.
  - now apply wf_add_node, wf_add_node.
  - apply keys_add_node_self.
  - rewrite keys_adjust. apply keys_add_node, keys_add_node_self.
Qed.

Lemma wf_build_from ops : forall net,
  forallb (op_cost_ok ok) ops = true ->
  wf_topology ok net -> wf_topology ok (fold_left apply_op ops net).
Proof.
  induction ops as [|[n|a b c] ops IH]; simpl; intros net Hok W; auto.
  - apply IH; [assumption|]. now apply wf_add_node.
  - apply andb_true_iff in Hok as [Hc Hok].
    apply IH; [assumption|]. now apply wf_add_link.
Qed.

Lemma wf_build ops :
  forallb (op_cost_ok ok) ops = true -> wf_topology ok (build ops).
Proof. intros H. apply wf_build_from; [assumption|apply wf_empty]. Qed.

End Construction.

(** Links are recorded on both ends with the same cost. *)

Lemma link_add_node net n x y : link (add_node net n) x y = link net x y.
Proof.
  unfold add_node, link. destruct (mem net n) eqn:E; [reflexivity|].
  rewrite get_set. destruct (String.eqb_spec n x) as [->|Hne]; [|reflexivity].
  unfold mem in E. destruct (get net x); [discriminate|reflexivity].
Qed.

Lemma link_add_link net a b c x y :
  link (add_link net a b c) x y =
  if (String.eqb b x && String.eqb a y) || (String.eqb a x && String.eqb b y)
  then Some c
  else link net x y.
Proof.
  unfold add_link.
  rewrite <- (link_add_node net a x y).
  rewrite <- (link_add_node (add_node net a) b x y).
  pose proof (keys_get _ _ (keys_add_node _ b _ (keys_add_node_self net a)))
    as [nda Ha].
  pose proof (keys_get _ _ (keys_add_node_self (add_node net a) b)) as [ndb Hb].
  revert Ha Hb. generalize (add_node (add_node net a) b). intros net1 Ha Hb.
  unfold link. rewrite !get_adjust.
  destruct (String.eqb_spec b x) as [Ebx|Hbx], (String.eqb_spec a x) as [Eax|Hax];
    simpl; subst; try rewrite Ha; try rewrite Hb; simpl;
    rewrite ?get_set, ?String.eqb_refl;
    repeat match goal with
           | |- context [String.eqb ?u y] => destruct (String.eqb u y)
           end;
    reflexivity.
Qed.

Lemma link_symmetric ops : forall a b, link (build ops) a b = link (build ops) b a.
Proof.
  unfold build.
  assert (H : forall net,
             (forall a b, link net a b = link net b a) ->
             forall a b, link (fold_left apply_op ops net) a b =
                         link (fold_left apply_op ops net) b a).
  { induction ops as [|[n|x y c] ops IH]; simpl; intros net Hs; auto.
    - apply IH. intros a b. now rewrite !link_add_node.
    - apply IH. intros a b. rewrite !link_add_link, (Hs a b).
      destruct (String.eqb y a), (String.eqb x b), (String.eqb x a),
        (String.eqb y b); reflexivity. }
  apply H. reflexivity.
Qed.

(** * The graph of a network *)

Lemma last_cons (p : list string) : forall n a, last (n :: p) a = last p n.
Proof.
  induction p as [|m p IH]; intros n a; [reflexivity|].
  change (last (n :: m :: p) a) with (last (m :: p) a).
  now rewrite !IH.
Qed.

Section Graph.
Variables (ok : Z -> bool) (G : Network).
Hypothesis W : wf_topology ok G.

Lemma link_in k g b : In (k, g) G -> link G k b = get (neighbors g) b.
Proof.
  intros H. unfold link.
  now rewrite (in_get_nodup G k g (wf_keys _ _ W) H).
Qed.

Lemma link_some a b c :
  link G a b = Some c ->
  exists g, In (a, g) G /\ In (b, c) (neighbors g) /\ In b (keys G) /\ ok c = true.
Proof.
  unfold link. destruct (get G a) as [g|] eqn:E; [|discriminate].
  intros H. apply get_in in E. apply get_in in H.
  destruct (wf_nbrs _ _ W _ _ _ _ E H). eauto.
Qed.

Lemma path_cost_app p : forall a q,
  path_cost G a (p ++ q) =
  match path_cost G a p, path_cost G (last p a) q with
  | Some x, Some y => Some (x + y)
  | _, _ => None
  end.
Proof.
  induction p as [|n p IH]; intros a q.
  - simpl. destruct (path_cost G a q); reflexivity.
  - rewrite last_cons. cbn [app path_cost]. rewrite IH.
    destruct (link G a n) as [c|]; [|reflexivity].
    destruct (path_cost G n p) as [x|]; [|reflexivity].
    destruct (path_cost G (last p n) q) as [y|]; [|reflexivity].
    f_equal. lia.
Qed.

End Graph.

(** * Initialisation of the routing tables *)

Section Initialisation.
Variables (ok : Z -> bool) (G : Network).
Hypothesis W : wf_topology ok G.

Lemma init_step_cases self rt node :
  (init_step self rt node = rt /\ (node = self \/ In node (keys rt))) \/
  (init_step self rt node = set rt node (Inf, None) /\
   node <> self /\ ~ In node (keys rt)).
Proof.
  unfold init_step.
  destruct (String.eqb_spec node self) as [->|Hne]; simpl; [auto|].
  destruct (mem rt node) eqn:E; simpl.
  - left. apply mem_keys in E. auto.
  - right. repeat split; auto. rewrite <- mem_keys. congruence.
Qed.

Lemma init_fold_in self all : forall rt b e,
  In (b, e) (fold_left (init_step self) all rt) ->
  In (b, e) rt \/ (e = (Inf, None) /\ In b all).
Proof.
  induction all as [|x all IH]; simpl; intros rt b e H; [auto|].
  apply IH in H as [H|[-> H]]; [|auto].
  destruct (init_step_cases self rt x) as [[E _]|[E _]]; rewrite E in *; [auto|].
  apply in_set in H as [[-> ->]|H]; auto.
Qed.

Lemma init_fold_keys_mono self all : forall rt b,
  In b (keys rt) -> In b (keys (fold_left (init_step self) all rt)).
Proof.
  induction all as [|x all IH]; simpl; intros rt b H; [assumption|].
  apply IH.
  destruct (init_step_cases self rt x) as [[E _]|[E _]]; rewrite E in *; [assumption|].
  apply in_keys_set. auto.
Qed.

Lemma init_fold_keys self all : forall rt b,
  In b all -> b <> self -> In b (keys (fold_left (init_step self) all rt)).
Proof.
  induction all as [|x all IH]; simpl; intros rt b H Hne; [contradiction|].
  destruct H as [->|H]; [|auto].
  apply init_fold_keys_mono.
  destruct (init_step_cases self rt b) as [[E0 [E|E]]|[E0 _]]; rewrite E0 in *.
  - contradiction.
  - assumption.
  - apply in_keys_set. auto.
Qed.

Lemma init_fold_nodup self all : forall rt,
  NoDup (keys rt) -> NoDup (keys (fold_left (init_step self) all rt)).
Proof.
  induction all as [|x all IH]; simpl; intros rt H; [assumption|].
  apply IH.
  destruct (init_step_cases self rt x) as [[E _]|[E _]]; rewrite E in *; [assumption|].
  now apply nodup_keys_set.
Qed.

Lemma init_table_ok k nd :
  In (k, nd) G ->
  table_ok G k (routing_table (initialize_routing_table nd (keys G))).
Proof.
  intros Hin. unfold initialize_routing_table. simpl.
  rewrite (wf_names _ _ W _ _ Hin), (wf_seeded _ _ W _ _ Hin).
  pose proof (wf_nbr_keys _ _ W _ _ Hin) as Hnd.
  constructor.
  - intros b e H.
    apply in_set_nodup in H as [[-> ->]|[Hne H]].
    + split; [eapply in_keys; eauto|]. simpl. auto.
    + apply init_fold_in in H as [H|[-> H]].
      * apply in_map_iff in H as [[nb c] [[= <- <-] H]].
        destruct (wf_nbrs _ _ W _ _ _ _ Hin H) as [Hk _].
        split; [assumption|]. simpl. right. split; [congruence|].
        exists nb, []. split; [reflexivity|]. split; [|reflexivity].
        simpl. rewrite (link_in ok G W _ _ nb Hin).
        rewrite (in_get_nodup _ _ _ Hnd H). f_equal. lia.
      * split; [assumption|reflexivity].
    + apply init_fold_nodup. unfold seed_entry.
      now rewrite (keys_map (fun kc => (Fin (snd kc), Some (fst kc)))).
  - apply get_set_eq.
  - intros b Hb. apply in_keys_set.
    destruct (string_dec b k) as [->|Hne]; [auto|].
    right. now apply init_fold_keys.
Qed.

Lemma topo_eq_map (f : Node -> Node) (l : Network) :
  (forall nd, name (f nd) = name nd /\ neighbors (f nd) = neighbors nd) ->
  topo_eq l (map (fun kn => (fst kn, f (snd kn))) l).
Proof.
  intros Hf. unfold topo_eq.
  induction l as [|[k nd] l IH]; simpl; constructor; auto.
  simpl. destruct (Hf nd). auto.
Qed.

Lemma good_init : good G (initialize_routing_tables G).
Proof.
  split.
  - unfold initialize_routing_tables.
    apply (topo_eq_map (fun nd => initialize_routing_table nd (keys G))).
    intros nd. split; reflexivity.
  - intros k nd' H. unfold initialize_routing_tables in H.
    apply in_map_iff in H as [[k0 nd0] [[= <- <-] H]].
    now apply init_table_ok.
Qed.

End Initialisation.

(** * One round of the convergence loop *)

Lemma set_routing_table_same n : set_routing_table n (routing_table n) = n.
Proof. now destruct n. Qed.

Lemma update_false_same nd nb t nd' :
  update_routing_table nd nb t = Ok nd' false -> nd' = nd.
Proof.
  intros H. apply update_ok_inv in H as (c & rt' & _ & Hf & ->).
  apply fold_relax_false in Hf as [_ [-> _]]. apply set_routing_table_same.
Qed.

Lemma update_cost_decreases n nb t n' u :
  update_routing_table n nb t = Ok n' u ->
  forall d,
    get (routing_table n') d = get (routing_table n) d \/
    cost_ltb (current_cost (routing_table n') d)
             (current_cost (routing_table n) d) = true.
Proof.
  intros H d. apply update_ok_inv in H as (c & rt' & _ & Hf & ->). simpl.
  destruct (fold_relax_entry _ _ _ _ _ _ _ _ Hf d) as [Heq|(_ & _ & k & Hk & Hlt)];
    [now left|right].
  now rewrite (current_cost_entry _ _ _ _ Hk).
Qed.

Section RoundSteps.
Variable sent : dict routing_table_t.

Lemma node_steps_trans nd1 nd2 nd3 :
  node_steps sent nd1 nd2 -> node_steps sent nd2 nd3 -> node_steps sent nd1 nd3.
Proof.
  induction 1 as [|nd nb t nd1 u nd2 Hs Hu _ IH]; [auto|].
  intros H. econstructor; eauto.
Qed.

Lemma relax_neighbors_steps nbs : forall nd u nd' u',
  relax_neighbors sent nbs nd u = Ok nd' u' -> node_steps sent nd nd'.
Proof.
  induction nbs as [|nb nbs IH]; simpl; intros nd u nd' u' H.
  - injection H as <- <-. constructor.
  - destruct (get sent nb) as [t|] eqn:Ht; [|discriminate].
    destruct (update_routing_table nd nb t) as [nd1 u1|] eqn:Hu; [|discriminate].
    econstructor; eauto.
Qed.

Lemma relax_nodes_steps nodes : forall u nodes' u',
  relax_nodes sent nodes u = Ok nodes' u' ->
  Forall2 (fun kn kn' => fst kn' = fst kn /\ node_steps sent (snd kn) (snd kn'))
          nodes nodes'.
Proof.
  induction nodes as [|[k nd] nodes IH]; simpl; intros u nodes' u' H.
  - injection H as <- <-. constructor.
  - destruct (relax_neighbors sent _ nd u) as [nd1 u1|] eqn:Hn; [|discriminate].
    destruct (relax_nodes sent nodes u1) as [rest u2|] eqn:Hr; [|discriminate].
    injection H as <- <-. constructor; [|eauto].
    simpl. split; [reflexivity|]. eapply relax_neighbors_steps; eauto.
Qed.

Lemma node_steps_name nd nd' :
  node_steps sent nd nd' -> name nd' = name nd /\ neighbors nd' = neighbors nd.
Proof.
  induction 1 as [|nd nb t nd1 u nd2 Hs Hu _ [IHn IHb]]; [auto|].
  rewrite IHn, IHb.
  pose proof (update_name nd nb t) as Hn.
  pose proof (update_neighbors nd nb t) as Hb.
  rewrite Hu in Hn, Hb. auto.
Qed.

Lemma node_steps_cost_le nd nd' :
  node_steps sent nd nd' ->
  forall d, cost_leb (current_cost (routing_table nd') d)
                     (current_cost (routing_table nd) d) = true.
Proof.
  induction 1 as [|nd nb t nd1 u nd2 Hs Hu _ IH]; intros d.
  - apply cost_leb_refl.
  - eapply cost_leb_trans; [apply IH|].
    destruct (update_cost_decreases _ _ _ _ _ Hu d) as [Heq|Hlt].
    + rewrite (current_cost_get _ _ _ Heq). apply cost_leb_refl.
    + now apply cost_ltb_leb.
Qed.

(** A relax phase that reports no change made none, and each of its
    calls returned [False]. *)
Lemma relax_neighbors_false nbs : forall nd u nd',
  relax_neighbors sent nbs nd u = Ok nd' false ->
  u = false /\ nd' = nd /\
  forall nb, In nb nbs ->
    exists t, get sent nb = Some t /\ update_routing_table nd nb t = Ok nd false.
Proof.
  induction nbs as [|nb nbs IH]; simpl; intros nd u nd' H.
  - injection H as <- <-. repeat split. tauto.
  - destruct (get sent nb) as [t|] eqn:Ht; [|discriminate].
    destruct (update_routing_table nd nb t) as [nd1 u1|] eqn:Hu; [|discriminate].
    apply IH in H as (Hflag & -> & Hall).
    destruct u1; [discriminate|]. subst u.
    pose proof (update_false_same _ _ _ _ Hu) as ->.
    repeat split. intros x [<-|Hx]; eauto.
Qed.

Lemma relax_nodes_false nodes : forall u nodes',
  relax_nodes sent nodes u = Ok nodes' false ->
  u = false /\ nodes' = nodes /\
  forall k nd nb, In (k, nd) nodes -> In nb (keys (neighbors nd)) ->
    exists t, get sent nb = Some t /\ update_routing_table nd nb t = Ok nd false.
Proof.
  induction nodes as [|[k nd] nodes IH]; simpl; intros u nodes' H.
  - injection H as <- <-. repeat split. tauto.
  - destruct (relax_neighbors sent _ nd u) as [nd1 u1|] eqn:Hn; [|discriminate].
    destruct (relax_nodes sent nodes u1) as [rest u2|] eqn:Hr; [|discriminate].
    injection H as <- ->.
    apply IH in Hr as (-> & -> & Hall).
    apply relax_neighbors_false in Hn as (-> & -> & Hnd).
    repeat split. intros k' nd' nb [[= <- <-]|Hin] Hnb; eauto.
Qed.

End RoundSteps.

Lemma forall2_get {V : Type} (R : V -> V -> Prop) (l l' : dict V) :
  Forall2 (fun kn kn' => fst kn' = fst kn /\ R (snd kn) (snd kn')) l l' ->
  forall a,
    match get l a, get l' a with
    | Some x, Some y => R x y
    | None, None => True
    | _, _ => False
    end.
Proof.
  induction 1 as [|[k x] [k' y] l l' [Hk HR] _ IH]; intros a; simpl; [exact I|].
  simpl in Hk. subst k'.
  destruct (String.eqb k a); [assumption|apply IH].
Qed.

Lemma forall2_in_right {A B : Type} (R : A -> B -> Prop) l l' :
  Forall2 R l l' -> forall y, In y l' -> exists x, In x l /\ R x y.
Proof.
  induction 1 as [|x y l l' HR _ IH]; simpl; intros z; [tauto|].
  intros [<-|Hz]; [eauto|]. destruct (IH z Hz) as [x' [Hx' HR']]. eauto.
Qed.

Lemma round_cost_le net net' u :
  round net = Ok net' u ->
  forall a d, cost_leb (current_cost (table_of net' a) d)
                       (current_cost (table_of net a) d) = true.
Proof.
  intros H a d. unfold round in H. apply relax_nodes_steps in H.
  pose proof (forall2_get _ _ _ H a) as Hg. unfold table_of.
  destruct (get net a) as [nd|], (get net' a) as [nd'|]; try contradiction.
  - now apply (node_steps_cost_le _ _ _ Hg).
  - apply cost_leb_refl.
Qed.

(** C4. Costs never go up: across a round of the convergence loop the
    cost a node records for a destination is at most what it was before the
    round, and a single [update_routing_table] call leaves each entry as it
    was or gives it a strictly smaller cost. *)
Theorem cost_non_increasing (net net' : Network) (u : bool)
  (n n' : Node) (neighbor : string) (neighbor_table : routing_table_t) (u' : bool) :
  round net = Ok net' u ->
  update_routing_table n neighbor neighbor_table = Ok n' u' ->
  (forall a d, cost_leb (current_cost (table_of net' a) d)
                        (current_cost (table_of net a) d) = true) /\
  (forall d, get (routing_table n') d = get (routing_table n) d \/
             cost_ltb (current_cost (routing_table n') d)
                      (current_cost (routing_table n) d) = true).
Proof.
  intros Hr Hu. split.
  - eapply round_cost_le; eauto.
  - eapply update_cost_decreases; eauto.
Qed.

Lemma cost_non_increasing_witness :
  let net := initialize_routing_tables (build main_ops) in
  let net' :=
    match round net with
    | Ok s _ => s
    | Raise s => s
    end in
  let rt' := [("B", (Fin 1, Some "B")); ("C", (Fin 3, Some "B"));
              ("D", (Fin 6, Some "B")); ("A", (Fin 0, Some "A"))] in
  (forall a d, cost_leb (current_cost (table_of net' a) d)
                        (current_cost (table_of net a) d) = true) /\
  (forall d, get rt' d = get (routing_table example_node) d \/
             cost_ltb (current_cost rt' d)
                      (current_cost (routing_table example_node) d) = true).
Proof.
  apply (cost_non_increasing
           (initialize_routing_tables (build main_ops)) _ true
           example_node
           (mkNode "A" [("B", 1); ("C", 4)]
                   [("B", (Fin 1, Some "B")); ("C", (Fin 3, Some "B"));
                    ("D", (Fin 6, Some "B")); ("A", (Fin 0, Some "A"))])
           "B" example_table true); reflexivity.
Defined.

(** C8. Idempotence at the fixpoint: when a full round reports no
    change, the network it leaves is the network it started from, one more
    round from there again reports no change and leaves the same network,
    and each [update_routing_table] call of that round returns [False]. *)
Theorem fixpoint_idempotent (net net' : Network) :
  round net = Ok net' false ->
  net' = net /\
  round net' = Ok net' false /\
  (forall k nd neighbor,
     In (k, nd) net' -> In neighbor (keys (neighbors nd)) ->
     exists t, get (sent_tables_of net') neighbor = Some t /\
               update_routing_table nd neighbor t = Ok nd false).
Proof.
  intros H. pose proof H as H0. unfold round in H0.
  apply relax_nodes_false in H0 as (_ & -> & Hall).
  repeat split; assumption.
Qed.

Lemma fixpoint_idempotent_witness :
  main_converged = main_converged /\
  round main_converged = Ok main_converged false /\
  (forall k nd neighbor,
     In (k, nd) main_converged -> In neighbor (keys (neighbors nd)) ->
     exists t, get (sent_tables_of main_converged) neighbor = Some t /\
               update_routing_table nd neighbor t = Ok nd false).
Proof.
  apply (fixpoint_idempotent main_converged main_converged). reflexivity.
Defined.

(** * The loop invariant *)

Lemma fold_relax_inv self c nb (P : routing_table_t -> Prop) (t : routing_table_t) :
  (forall rt0 k0 nc h,
     P rt0 -> In (k0, (nc, h)) t -> k0 <> self ->
     cost_ltb (cost_add c nc) (current_cost rt0 k0) = true ->
     P (set rt0 k0 (cost_add c nc, Some nb))) ->
  forall rt u rt' u',
    fold_left (relax_step self c nb) t (rt, u) = (rt', u') -> P rt -> P rt'.
Proof.
  induction t as [|[k0 [nc h]] t IH]; cbn [fold_left]; intros Hstep rt u rt' u' Hf HP.
  - now injection Hf as <- <-.
  - assert (Hstep' : forall rt0 k1 nc1 h1,
               P rt0 -> In (k1, (nc1, h1)) t -> k1 <> self ->
               cost_ltb (cost_add c nc1) (current_cost rt0 k1) = true ->
               P (set rt0 k1 (cost_add c nc1, Some nb))).
    { intros rt0 k1 nc1 h1 HP0 Hin Hne Hlt.
      apply (Hstep rt0 k1 nc1 h1); auto. right. exact Hin. }
    destruct (relax_step_cases self c nb rt u k0 nc h) as [[E _]|[E [Hne Hlt]]];
      rewrite E in Hf; eapply (IH Hstep'); eauto.
    apply (Hstep rt k0 nc h); auto. left. reflexivity.
Qed.

Section Invariant.
Variables (ok : Z -> bool) (G : Network).
Hypothesis W : wf_topology ok G.

Lemma topo_eq_keys cur : topo_eq G cur -> keys cur = keys G.
Proof.
  clear W. unfold topo_eq, keys.
  induction 1 as [|g c l l' [Hk _] _ IH]; simpl; [reflexivity|].
  now rewrite Hk, IH.
Qed.

Lemma topo_eq_in cur k nd :
  topo_eq G cur -> In (k, nd) cur ->
  exists g, In (k, g) G /\ name nd = k /\ neighbors nd = neighbors g.
Proof.
  intros T H. destruct (forall2_in_right _ _ _ T _ H) as [[k' g] [Hg [Hk [Hn Hb]]]].
  simpl in *. subst k'. exists g. repeat split; auto.
  rewrite Hn. eapply wf_names; eauto.
Qed.

Lemma topo_eq_nodup cur : topo_eq G cur -> NoDup (keys cur).
Proof. intros T. rewrite (topo_eq_keys _ T). apply W. Qed.

Lemma cur_link cur k nd nb :
  topo_eq G cur -> In (k, nd) cur -> link G k nb = get (neighbors nd) nb.
Proof.
  intros T H. destruct (topo_eq_in _ _ _ T H) as [g [Hg [_ ->]]].
  now apply (link_in ok).
Qed.

Lemma sent_fold (l : Network) : forall d0 a,
  NoDup (keys l) -> (forall k nd, In (k, nd) l -> name nd = k) ->
  get (fold_left (fun d nd => set d (name nd) (send_routing_table nd))
                 (values l) d0) a =
  match get l a with
  | Some nd => Some (routing_table nd)
  | None => get d0 a
  end.
Proof.
  induction l as [|[k nd] l IH]; simpl; intros d0 a Hnd Hn; [reflexivity|].
  inversion Hnd as [|? ? Hnotin Hnd']; subst.
  rewrite IH by (auto; intros; apply Hn; now right).
  rewrite (Hn k nd) by now left.
  destruct (String.eqb_spec k a) as [->|Hne].
  - apply get_none_keys in Hnotin. rewrite Hnotin. apply get_set_eq.
  - rewrite get_set_neq by assumption. reflexivity.
Qed.

Lemma sent_tables_get cur a :
  topo_eq G cur ->
  get (sent_tables_of cur) a = option_map routing_table (get cur a).
Proof.
  intros T. unfold sent_tables_of. rewrite sent_fold.
  - now destruct (get cur a).
  - now apply topo_eq_nodup.
  - intros k nd H. now destruct (topo_eq_in _ _ _ T H) as [g [_ [-> _]]].
Qed.

Lemma sent_tables_ok cur nb t :
  good G cur -> get (sent_tables_of cur) nb = Some t -> table_ok G nb t.
Proof.
  intros [T Hok]. rewrite (sent_tables_get _ _ T).
  destruct (get cur nb) as [nd|] eqn:E; [|discriminate].
  intros [= <-]. apply Hok. now apply get_in.
Qed.

Lemma sound_entry_path a b d h :
  sound_entry G a b (Fin d, h) -> exists hops, is_path G a hops b d.
Proof.
  intros [(-> & -> & _)|(_ & n & hops & _ & Hp)].
  - exists []. split; reflexivity.
  - eauto.
Qed.

Lemma update_table_ok nd nb t nd' u :
  update_routing_table nd nb t = Ok nd' u ->
  table_ok G nb t ->
  link G (name nd) nb = get (neighbors nd) nb ->
  table_ok G (name nd) (routing_table nd) ->
  table_ok G (name nd) (routing_table nd').
Proof.
  intros Hu Ht Hl Hrt.
  apply update_ok_inv in Hu as (c & rt' & Hc & Hf & ->). simpl.
  rewrite Hc in Hl.
  eapply (fold_relax_inv _ _ _ (table_ok G (name nd))); eauto.
  clear Hf Hrt rt'. intros rt0 k0 nc h [Hs Hself Hfull] Hin Hne Hlt.
  destruct nc as [z|]; [|discriminate]. simpl.
  destruct (tbl_sound _ _ _ Ht _ _ Hin) as [Hk0 Hsnd].
  apply sound_entry_path in Hsnd as [hops [Hcost Hlast]].
  constructor.
  - intros b e H. apply in_set in H as [[-> ->]|H]; [|auto].
    split; [assumption|]. simpl. right. split; [congruence|].
    exists nb, hops. split; [reflexivity|]. split.
    + simpl. now rewrite Hl, Hcost.
    + now rewrite last_cons.
  - rewrite get_set_neq; auto.
  - intros b Hb. apply in_keys_set. auto.
Qed.

Lemma node_steps_table_ok sent nd nd' :
  (forall nb t, get sent nb = Some t -> table_ok G nb t) ->
  node_steps sent nd nd' ->
  (forall nb, link G (name nd) nb = get (neighbors nd) nb) ->
  table_ok G (name nd) (routing_table nd) ->
  table_ok G (name nd) (routing_table nd').
Proof.
  intros Hsent. induction 1 as [|nd nb t nd1 u nd2 Hs Hu _ IH]; intros Hl Hrt.
  - assumption.
  - pose proof (update_name nd nb t) as Hn.
    pose proof (update_neighbors nd nb t) as Hb.
    rewrite Hu in Hn, Hb. simpl in Hn, Hb.
    rewrite <- Hn. apply IH.
    + intros x. now rewrite Hn, Hb.
    + rewrite Hn. eapply update_table_ok; eauto.
Qed.

Lemma topo_eq_steps sent cur : forall cur',
  topo_eq G cur ->
  Forall2 (fun kn kn' => fst kn' = fst kn /\ node_steps sent (snd kn) (snd kn'))
          cur cur' ->
  topo_eq G cur'.
Proof.
  clear W. unfold topo_eq. intros cur' T. revert cur'.
  induction T as [|g c l l' [Hk [Hn Hb]] _ IH]; intros cur' H;
    inversion H as [|? c' ? l2 [Hk' Hs] Hrest]; subst; constructor; auto.
  destruct (node_steps_name _ _ _ Hs) as [Hn' Hb'].
  repeat split; congruence.
Qed.

Lemma round_good cur cur' u : good G cur -> round cur = Ok cur' u -> good G cur'.
Proof.
  intros Hg H. pose proof Hg as [T Hok].
  unfold round in H. apply relax_nodes_steps in H.
  split; [eapply topo_eq_steps; eauto|].
  intros k nd' Hin.
  destruct (forall2_in_right _ _ _ H _ Hin) as [[k0 nd] [Hin0 [Hk Hs]]].
  simpl in Hk, Hs. subst k0.
  destruct (topo_eq_in _ _ _ T Hin0) as [g [Hgin [Hname Hnb]]].
  rewrite <- Hname. eapply node_steps_table_ok; eauto.
  - intros nb t. now apply sent_tables_ok.
  - intros nb. rewrite Hname. eapply cur_link; eauto.
  - rewrite Hname. now apply Hok.
Qed.

(** No lookup of a round can fail. *)
Lemma relax_neighbors_ok sent nbs : forall nd u,
  (forall nb, In nb nbs -> In nb (keys sent) /\ In nb (keys (neighbors nd))) ->
  exists nd' u', relax_neighbors sent nbs nd u = Ok nd' u'.
Proof.
  induction nbs as [|nb nbs IH]; simpl; intros nd u H; [eauto|].
  destruct (H nb (or_introl eq_refl)) as [Hs Hn].
  apply keys_get in Hs as [t ->].
  destruct (update_routing_table nd nb t) as [nd1 u1|nd1] eqn:Hu.
  - apply IH. intros x Hx.
    pose proof (update_neighbors nd nb t) as Hb. rewrite Hu in Hb. simpl in Hb.
    rewrite Hb. apply H. now right.
  - apply update_raise_inv in Hu as [Hu _]. apply get_none_keys in Hu.
    contradiction.
Qed.

Lemma relax_nodes_ok sent nodes : forall u,
  (forall k nd nb, In (k, nd) nodes -> In nb (keys (neighbors nd)) ->
                   In nb (keys sent)) ->
  exists nodes' u', relax_nodes sent nodes u = Ok nodes' u'.
Proof.
  induction nodes as [|[k nd] nodes IH]; simpl; intros u H; [eauto|].
  destruct (relax_neighbors_ok sent (keys (neighbors nd)) nd u) as (nd1 & u1 & ->).
  { intros nb Hnb. split; [|assumption]. eapply H; eauto. }
  destruct (IH u1) as (rest & u2 & ->); [|eauto].
  intros k' nd' nb Hin Hnb. eapply H; eauto.
Qed.

Lemma round_ok cur : good G cur -> exists cur' u, round cur = Ok cur' u.
Proof.
  intros [T _]. unfold round. apply relax_nodes_ok.
  intros k nd nb Hin Hnb.
  destruct (topo_eq_in _ _ _ T Hin) as [g [Hg [_ Hb]]].
  rewrite Hb in Hnb. apply keys_get in Hnb as [c Hc]. apply get_in in Hc.
  destruct (wf_nbrs _ _ W _ _ _ _ Hg Hc) as [Hk _].
  rewrite <- (topo_eq_keys _ T) in Hk.
  apply keys_get in Hk as [ndn Hndn].
  apply mem_keys. unfold mem.
  now rewrite (sent_tables_get _ _ T), Hndn.
Qed.

End Invariant.

(** * The converged state *)

Section FixedPoint.
Variables (ok : Z -> bool) (G : Network).
Hypothesis W : wf_topology ok G.
Hypothesis Hnn : forall c, ok c = true -> 0 <= c.

Lemma path_nonneg hops : forall a d, path_cost G a hops = Some d -> 0 <= d.
Proof.
  induction hops as [|n hops IH]; simpl; intros a d H.
  - injection H as <-. lia.
  - destruct (link G a n) as [c|] eqn:El; [|discriminate].
    destruct (path_cost G n hops) as [d1|] eqn:Ep; [|discriminate].
    injection H as <-.
    destruct (link_some ok G W _ _ _ El) as (_ & _ & _ & _ & Hc).
    apply Hnn in Hc. specialize (IH _ _ Ep). lia.
Qed.

Variable cur : Network.
Hypothesis Hgood : good G cur.
Hypothesis Hfix : round cur = Ok cur false.

Lemma table_of_in a nd : In (a, nd) cur -> table_of cur a = routing_table nd.
Proof.
  intros H. unfold table_of.
  rewrite (in_get_nodup cur a nd); auto.
  apply (topo_eq_nodup ok G W). apply Hgood.
Qed.

Lemma cur_node a : In a (keys G) -> exists nd, In (a, nd) cur.
Proof.
  intros H. destruct Hgood as [T _].
  rewrite <- (topo_eq_keys G _ T) in H.
  apply keys_get in H as [nd H]. apply get_in in H. eauto.
Qed.

(** At the fixpoint no neighbor offers a better route. *)
Lemma no_fire a nd n c ndn b nc h :
  In (a, nd) cur -> get (neighbors nd) n = Some c ->
  In (n, ndn) cur -> In (b, (nc, h)) (routing_table ndn) -> b <> a ->
  cost_ltb (cost_add c nc) (current_cost (routing_table nd) b) = false.
Proof.
  intros Ha Hc Hn Hb Hne. pose proof Hgood as [T _].
  pose proof Hfix as H0. unfold round in H0.
  apply relax_nodes_false in H0 as (_ & _ & Hall).
  destruct (Hall a nd n Ha (get_some_keys _ _ _ Hc)) as (t & Ht & Hu).
  rewrite (sent_tables_get ok G W _ _ T) in Ht.
  rewrite (in_get_nodup cur n ndn (topo_eq_nodup ok G W _ T) Hn) in Ht.
  injection Ht as <-.
  apply update_ok_inv in Hu as (c' & rt' & Hc' & Hf & _).
  rewrite Hc in Hc'. injection Hc' as <-.
  apply fold_relax_false in Hf as (_ & _ & Hf).
  rewrite Forall_forall in Hf. destruct (Hf _ Hb) as [E|E]; simpl in E.
  - destruct (topo_eq_in ok G W _ _ _ T Ha) as [g [_ [Hname _]]]. congruence.
  - assumption.
Qed.

(** Every walk of the graph is matched by the table of its source. *)
Lemma complete hops : forall a b d,
  In a (keys G) -> is_path G a hops b d ->
  exists d' h, get (table_of cur a) b = Some (Fin d', h) /\ d' <= d.
Proof.
  pose proof Hgood as [T Hok].
  induction hops as [|n hops IH]; intros a b d Ha [Hc Hl].
  - simpl in Hc, Hl. injection Hc as <-. subst b.
    destruct (cur_node a Ha) as [nd Hnd].
    rewrite (table_of_in _ _ Hnd), (tbl_self _ _ _ (Hok _ _ Hnd)).
    exists 0, (Some a). split; [reflexivity|lia].
  - simpl in Hc. rewrite last_cons in Hl.
    destruct (link G a n) as [c|] eqn:El; [|discriminate].
    destruct (path_cost G n hops) as [d1|] eqn:Ep; [|discriminate].
    injection Hc as <-.
    destruct (link_some ok G W _ _ _ El) as (_ & _ & _ & Hn & Hcok).
    destruct (IH n b d1 Hn (conj Ep Hl)) as (d1' & h1 & Hg & Hle).
    destruct (cur_node a Ha) as [nd Hnd].
    rewrite (table_of_in _ _ Hnd).
    destruct (string_dec b a) as [->|Hne].
    + rewrite (tbl_self _ _ _ (Hok _ _ Hnd)).
      exists 0, (Some a). split; [reflexivity|].
      apply Hnn in Hcok. pose proof (path_nonneg _ _ _ Ep). lia.
    + destruct (cur_node n Hn) as [ndn Hndn].
      rewrite (table_of_in _ _ Hndn) in Hg. apply get_in in Hg.
      rewrite (cur_link ok G W _ _ _ n T Hnd) in El.
      pose proof (no_fire _ _ _ _ _ _ _ _ Hnd El Hndn Hg Hne) as Hnf.
      unfold current_cost, get_default in Hnf.
      destruct (get (routing_table nd) b) as [[[x|] h]|]; simpl in Hnf;
        try discriminate.
      exists x, h. split; [reflexivity|].
      apply Z.ltb_ge in Hnf. lia.
Qed.

Lemma entry_correct a b :
  In a (keys G) -> In b (keys G) ->
  exists k h,
    get (table_of cur a) b = Some (k, h) /\
    shortest_path_cost G a b k /\ sound_entry G a b (k, h) /\
    (a = b -> k = Fin 0 /\ h = Some a).
Proof.
  intros Ha Hb. pose proof Hgood as [T Hok].
  destruct (cur_node a Ha) as [nd Hnd].
  pose proof (Hok _ _ Hnd) as Htbl.
  destruct (keys_get _ _ (tbl_full _ _ _ Htbl _ Hb)) as [[k h] Hg].
  destruct (tbl_sound _ _ _ Htbl _ _ (get_in _ _ _ Hg)) as [_ Hs].
  assert (Hself : a = b -> k = Fin 0 /\ h = Some a).
  { intros <-. rewrite (tbl_self _ _ _ Htbl) in Hg. now injection Hg as <- <-. }
  rewrite <- (table_of_in _ _ Hnd) in Hg.
  exists k, h. split; [assumption|]. split; [|auto].
  destruct k as [d|]; simpl.
  - split; [now apply sound_entry_path in Hs|].
    intros hops d' Hp.
    destruct (complete _ _ _ _ Ha Hp) as (d'' & h'' & Hg' & Hle).
    rewrite Hg in Hg'. injection Hg' as <- <-. assumption.
  - intros (hops & d' & Hp).
    destruct (complete _ _ _ _ Ha Hp) as (d'' & h'' & Hg' & _).
    rewrite Hg in Hg'. discriminate.
Qed.

End FixedPoint.

(** * Shortest walks under positive costs visit no node twice *)

Lemma last_app (p q : list string) a : last (p ++ q) a = last q (last p a).
Proof.
  revert a. induction p as [|n p IH]; intros a; [reflexivity|].
  change ((n :: p) ++ q) with (n :: (p ++ q)).
  now rewrite !last_cons, IH.
Qed.

Lemma dup_split (l : list string) :
  ~ NoDup l -> exists l1 x l2 l3, l = l1 ++ x :: l2 ++ x :: l3.
Proof.
  induction l as [|y l IH]; intros H.
  - exfalso. apply H. constructor.
  - destruct (in_dec string_dec y l) as [Hin|Hnin].
    + apply in_split in Hin as (l2 & l3 & ->). now exists [], y, l2, l3.
    + destruct IH as (l1 & x & l2 & l3 & ->).
      * intros Hnd. apply H. now constructor.
      * now exists (y :: l1), x, l2, l3.
Qed.

Section Simple.
Variables (ok : Z -> bool) (G : Network).
Hypothesis W : wf_topology ok G.
Hypothesis Hpos : forall c, ok c = true -> 0 < c.

Lemma path_pos hops : forall a d,
  hops <> [] -> path_cost G a hops = Some d -> 0 < d.
Proof.
  intros a d Hne H. destruct hops as [|n hops]; [contradiction|].
  simpl in H.
  destruct (link G a n) as [c|] eqn:El; [|discriminate].
  destruct (path_cost G n hops) as [d1|] eqn:Ep; [|discriminate].
  injection H as <-.
  destruct (link_some ok G W _ _ _ El) as (_ & _ & _ & _ & Hc).
  apply Hpos in Hc.
  assert (0 <= d1); [|lia].
  eapply (path_nonneg ok G W); eauto. intros c0 H0. apply Hpos in H0. lia.
Qed.

Lemma remove_cycle p q r a d :
  path_cost G a (p ++ q ++ r) = Some d ->
  q <> [] -> last q (last p a) = last p a ->
  exists d', path_cost G a (p ++ r) = Some d' /\ d' < d /\
             last (p ++ r) a = last (p ++ q ++ r) a.
Proof.
  intros H Hq Hl. rewrite !path_cost_app in H. rewrite Hl in H.
  destruct (path_cost G a p) as [x|] eqn:Ex; [|discriminate].
  destruct (path_cost G (last p a) q) as [y|] eqn:Ey; [|discriminate].
  destruct (path_cost G (last p a) r) as [z|] eqn:Ez; [|discriminate].
  injection H as <-.
  exists (x + z). rewrite path_cost_app, Ex, Ez. repeat split.
  - pose proof (path_pos _ _ _ Hq Ey). lia.
  - now rewrite !last_app, Hl.
Qed.

Lemma shortest_nodup a hops b d :
  is_path G a hops b d -> shortest_path_cost G a b (Fin d) -> NoDup (a :: hops).
Proof.
  intros [Hc Hl] [_ Hmin].
  destruct (nodupb (a :: hops)) eqn:Eb; [now apply nodupb_NoDup|].
  assert (Hdup : ~ NoDup (a :: hops)).
  { intros X. apply nodupb_NoDup in X. congruence. }
  exfalso. apply dup_split in Hdup as (l1 & x & l2 & l3 & E).
  assert (Hcyc : exists p, hops = p ++ (l2 ++ [x]) ++ l3 /\ last p a = x).
  { destruct l1 as [|a' l1]; simpl in E; injection E as -> ->.
    - exists []. split; [|reflexivity]. simpl. now rewrite <- app_assoc.
    - exists (l1 ++ [x]). split.
      + rewrite <- !app_assoc. reflexivity.
      + now rewrite last_app. }
  destruct Hcyc as (p & -> & Hp).
  destruct (remove_cycle p (l2 ++ [x]) l3 a d Hc) as (d' & Hc' & Hlt & Hl').
  - now destruct l2.
  - now rewrite last_app, Hp.
  - assert (d <= d'); [|lia].
    apply (Hmin (p ++ l3)). split; [assumption|]. now rewrite Hl'.
Qed.

End Simple.

(** * Progress of the convergence loop *)

Ltac lex_solve := unfold lex_lt, lex_le, measure_add in *; simpl in *; lia.

Lemma lex_lt_le m m' : lex_lt m m' -> lex_le m m'.
Proof. lex_solve. Qed.

Lemma lex_le_refl m : lex_le m m.
Proof. lex_solve. Qed.

Lemma lex_le_trans m1 m2 m3 : lex_le m1 m2 -> lex_le m2 m3 -> lex_le m1 m3.
Proof. lex_solve. Qed.

Lemma lex_lt_le_trans m1 m2 m3 : lex_lt m1 m2 -> lex_le m2 m3 -> lex_lt m1 m3.
Proof. lex_solve. Qed.

Lemma lex_le_lt_trans m1 m2 m3 : lex_le m1 m2 -> lex_lt m2 m3 -> lex_lt m1 m3.
Proof. lex_solve. Qed.

Lemma lex_add_le m1 m1' m2 m2' :
  lex_le m1 m1' -> lex_le m2 m2' -> lex_le (measure_add m1 m2) (measure_add m1' m2').
Proof. lex_solve. Qed.

Lemma lex_add_lt_l m1 m1' m2 m2' :
  lex_lt m1 m1' -> lex_le m2 m2' -> lex_lt (measure_add m1 m2) (measure_add m1' m2').
Proof. lex_solve. Qed.

Lemma lex_add_lt_r m1 m1' m2 m2' :
  lex_le m1 m1' -> lex_lt m2 m2' -> lex_lt (measure_add m1 m2) (measure_add m1' m2').
Proof. lex_solve. Qed.

Lemma lex_induction (P : nat * Z -> Prop) :
  (forall m, 0 <= snd m ->
             (forall m', 0 <= snd m' -> lex_lt m' m -> P m') -> P m) ->
  forall m, 0 <= snd m -> P m.
Proof.
  intros Hstep [a s]. revert s.
  induction a as [a IHa] using lt_wf_ind.
  intros s Hs. simpl in Hs. revert s Hs.
  apply (Zlt_0_ind (fun s => P (a, s))).
  intros s IHs Hs. apply Hstep; [assumption|].
  intros [a' s'] Hs' [Hlt|[Heq Hlt]]; simpl in *.
  - now apply IHa.
  - subst a'. apply IHs. lia.
Qed.

Lemma table_measure_cons x U rt :
  table_measure (x :: U) rt =
  measure_add ((if is_inf (current_cost rt x) then 1%nat else 0%nat),
               fin_part (current_cost rt x))
              (table_measure U rt).
Proof.
  unfold table_measure, measure_add, inf_count, fin_sum.
  cbn [map filter fold_right fst snd].
  destruct (is_inf (current_cost rt x)); reflexivity.
Qed.

Lemma table_measure_same U rt rt' :
  (forall d, In d U -> current_cost rt' d = current_cost rt d) ->
  table_measure U rt' = table_measure U rt.
Proof.
  induction U as [|x U IH]; intros H; [reflexivity|].
  rewrite !table_measure_cons, IH, (H x).
  - reflexivity.
  - now left.
  - intros d Hd. apply H. now right.
Qed.

Lemma current_cost_set_eq rt k e : current_cost (set rt k e) k = fst e.
Proof. unfold current_cost, get_default. now rewrite get_set_eq. Qed.

Lemma current_cost_set_neq rt k e d :
  k <> d -> current_cost (set rt k e) d = current_cost rt d.
Proof. intros H. apply current_cost_get. now apply get_set_neq. Qed.

(** Lowering one cost lowers the measure. *)
Lemma set_measure U : forall rt k0 new h,
  NoDup U -> In k0 U ->
  cost_ltb new (current_cost rt k0) = true ->
  lex_lt (table_measure U (set rt k0 (new, h))) (table_measure U rt).
Proof.
  induction U as [|x U IH]; intros rt k0 new h Hnd Hin Hlt; [contradiction|].
  inversion Hnd as [|? ? Hx HU]; subst.
  rewrite !table_measure_cons.
  destruct (string_dec x k0) as [->|Hne].
  - rewrite current_cost_set_eq.
    rewrite (table_measure_same U rt (set rt k0 (new, h))).
    2:{ intros d Hd. apply current_cost_set_neq. congruence. }
    simpl fst. revert Hlt. generalize (current_cost rt k0). intros old Hlt.
    destruct new as [z|], old as [y|]; simpl in Hlt; try discriminate.
    + apply Z.ltb_lt in Hlt. lex_solve.
    + lex_solve.
  - rewrite (current_cost_set_neq rt k0 (new, h) x) by congruence.
    apply lex_add_lt_r; [apply lex_le_refl|].
    apply IH; auto. destruct Hin; [congruence|assumption].
Qed.

Section Progress.
Variable U : list string.
Hypothesis HU : NoDup U.

Lemma fold_relax_measure self c nb (t : routing_table_t) :
  (forall d, In d (keys t) -> In d U) ->
  forall rt u rt' u',
    fold_left (relax_step self c nb) t (rt, u) = (rt', u') ->
    lex_le (table_measure U rt') (table_measure U rt) /\
    (u' = true -> u = true \/ lex_lt (table_measure U rt') (table_measure U rt)).
Proof.
  induction t as [|[k0 [nc h]] t IH]; cbn [fold_left]; intros Hk rt u rt' u' Hf.
  - injection Hf as <- <-. split; [apply lex_le_refl|auto].
  - assert (Hk' : forall d, In d (keys t) -> In d U).
    { intros d Hd. apply Hk. now right. }
    destruct (relax_step_cases self c nb rt u k0 nc h) as [[E _]|[E [Hne Hlt]]];
      rewrite E in Hf; destruct (IH Hk' _ _ _ _ Hf) as [Hle Hflag].
    + auto.
    + assert (Hstep : lex_lt (table_measure U (set rt k0 (cost_add c nc, Some nb)))
                             (table_measure U rt)).
      { apply set_measure; auto. apply Hk. now left. }
      split.
      * apply lex_lt_le. eapply lex_le_lt_trans; eauto.
      * intros _. right. eapply lex_le_lt_trans; eauto.
Qed.

Lemma update_measure nd nb t nd' u :
  (forall d, In d (keys t) -> In d U) ->
  update_routing_table nd nb t = Ok nd' u ->
  lex_le (table_measure U (routing_table nd')) (table_measure U (routing_table nd)) /\
  (u = true ->
   lex_lt (table_measure U (routing_table nd')) (table_measure U (routing_table nd))).
Proof.
  intros Hk H. apply update_ok_inv in H as (c & rt' & _ & Hf & ->). simpl.
  destruct (fold_relax_measure _ _ _ _ Hk _ _ _ _ Hf) as [Hle Hflag].
  split; [assumption|]. intros Hu. destruct (Hflag Hu); [discriminate|assumption].
Qed.

Variable sent : dict routing_table_t.
Hypothesis Hsent : forall nb t d, get sent nb = Some t -> In d (keys t) -> In d U.

Lemma relax_neighbors_measure nbs : forall nd u nd' u',
  relax_neighbors sent nbs nd u = Ok nd' u' ->
  lex_le (table_measure U (routing_table nd')) (table_measure U (routing_table nd)) /\
  (u' = true ->
   u = true \/
   lex_lt (table_measure U (routing_table nd')) (table_measure U (routing_table nd))).
Proof.
  induction nbs as [|nb nbs IH]; simpl; intros nd u nd' u' H.
  - injection H as <- <-. split; [apply lex_le_refl|auto].
  - destruct (get sent nb) as [t|] eqn:Ht; [|discriminate].
    destruct (update_routing_table nd nb t) as [nd1 u1|] eqn:Hu; [|discriminate].
    destruct (update_measure _ _ _ _ _ (fun d => Hsent _ _ d Ht) Hu) as [Hle1 Hlt1].
    destruct (IH _ _ _ _ H) as [Hle Hflag].
    split; [eapply lex_le_trans; eauto|].
    intros Hu'. destruct (Hflag Hu') as [Hb|Hlt].
    + destruct u1; [|auto]. right. eapply lex_le_lt_trans; eauto.
    + right. eapply lex_lt_le_trans; eauto.
Qed.

Lemma net_measure_cons k nd rest :
  net_measure U ((k, nd) :: rest) =
  measure_add (table_measure U (routing_table nd)) (net_measure U rest).
Proof. reflexivity. Qed.

Lemma relax_nodes_measure nodes : forall u nodes' u',
  relax_nodes sent nodes u = Ok nodes' u' ->
  lex_le (net_measure U nodes') (net_measure U nodes) /\
  (u' = true -> u = true \/ lex_lt (net_measure U nodes') (net_measure U nodes)).
Proof.
  induction nodes as [|[k nd] nodes IH]; simpl relax_nodes; intros u nodes' u' H.
  - injection H as <- <-. split; [apply lex_le_refl|auto].
  - destruct (relax_neighbors sent _ nd u) as [nd1 u1|] eqn:Hn; [|discriminate].
    destruct (relax_nodes sent nodes u1) as [rest u2|] eqn:Hr; [|discriminate].
    injection H as <- <-.
    destruct (relax_neighbors_measure _ _ _ _ _ Hn) as [Hle1 Hflag1].
    destruct (IH _ _ _ Hr) as [Hle2 Hflag2].
    rewrite !net_measure_cons. split; [now apply lex_add_le|].
    intros Hu. destruct (Hflag2 Hu) as [Hb|Hlt].
    + destruct (Hflag1 Hb) as [Hb'|Hlt]; [auto|].
      right. now apply lex_add_lt_l.
    + right. now apply lex_add_lt_r.
Qed.

End Progress.

(** * Termination and the converged tables *)

Lemma round_false_same net net' : round net = Ok net' false -> net' = net.
Proof. unfold round. intros H. now apply relax_nodes_false in H as (_ & -> & _). Qed.

Section Termination.
Variables (ok : Z -> bool) (G : Network).
Hypothesis W : wf_topology ok G.
Hypothesis Hnn : forall c, ok c = true -> 0 <= c.

Lemma fin_part_nonneg a rt d :
  table_ok G a rt -> 0 <= fin_part (current_cost rt d).
Proof.
  intros Ht. unfold current_cost, get_default.
  destruct (get rt d) as [[[z|] h]|] eqn:E; simpl; try lia.
  destruct (tbl_sound _ _ _ Ht _ _ (get_in _ _ _ E)) as [_ Hs].
  apply sound_entry_path in Hs as [hops [Hc _]].
  eapply (path_nonneg ok G W Hnn); eauto.
Qed.

Lemma fin_sum_nonneg a rt U : table_ok G a rt -> 0 <= fin_sum U rt.
Proof.
  intros Ht. unfold fin_sum. induction U as [|x U IH]; simpl; [lia|].
  pose proof (fin_part_nonneg a rt x Ht). lia.
Qed.

Lemma net_measure_nonneg U G' cur :
  tables_ok G' cur -> G' = G -> 0 <= snd (net_measure U cur).
Proof.
  intros Hok ->. unfold net_measure, net_fin_sum. simpl.
  induction cur as [|[k nd] cur IH]; simpl; [lia|].
  assert (0 <= fin_sum U (routing_table nd)).
  { apply (fin_sum_nonneg k). apply Hok. now left. }
  assert (0 <= fold_right Z.add 0
                 (map (fun kn => fin_sum U (routing_table (snd kn))) cur)).
  { apply IH. intros k' nd' H'. apply Hok. now right. }
  lia.
Qed.

Lemma round_measure cur cur' :
  good G cur -> round cur = Ok cur' true ->
  lex_lt (net_measure (keys G) cur') (net_measure (keys G) cur).
Proof.
  intros Hg H. unfold round in H.
  apply (relax_nodes_measure (keys G) (wf_keys _ _ W)) in H.
  - destruct H as [_ H]. destruct (H eq_refl); [discriminate|assumption].
  - intros nb t d Ht Hd.
    pose proof (sent_tables_ok ok G W _ _ _ Hg Ht) as Htbl.
    unfold keys in Hd. apply in_map_iff in Hd as [[d' e] [<- Hin]].
    now destruct (tbl_sound _ _ _ Htbl _ _ Hin).
Qed.

Lemma loop_terminates_measure :
  forall m, 0 <= snd m ->
  forall cur, good G cur -> m = net_measure (keys G) cur ->
  forall i, exists fuel cur' it,
    dvr_loop fuel i cur = Converged cur' it /\
    good G cur' /\ round cur' = Ok cur' false.
Proof.
  apply (lex_induction
           (fun m => forall cur, good G cur -> m = net_measure (keys G) cur ->
              forall i, exists fuel cur' it,
                dvr_loop fuel i cur = Converged cur' it /\
                good G cur' /\ round cur' = Ok cur' false)).
  intros m Hm IH cur Hg -> i.
  destruct (round_ok ok G W cur Hg) as (cur1 & u & Hr).
  pose proof (round_good ok G W _ _ _ Hg Hr) as Hg1.
  destruct u.
  - destruct (IH (net_measure (keys G) cur1)) with (cur := cur1) (i := S i)
      as (fuel & cur' & it & Hloop & Hg' & Hfix); auto.
    + eapply net_measure_nonneg; [apply Hg1|reflexivity].
    + now apply round_measure.
    + exists (S fuel), cur', it. simpl. rewrite Hr. auto.
  - exists 1%nat, cur1, i. simpl. rewrite Hr.
    pose proof (round_false_same _ _ Hr) as ->. auto.
Qed.

(** The loop reaches a round without change. *)
Lemma loop_terminates cur :
  good G cur ->
  forall i, exists fuel cur' it,
    dvr_loop fuel i cur = Converged cur' it /\
    good G cur' /\ round cur' = Ok cur' false.
Proof.
  intros Hg. apply (loop_terminates_measure (net_measure (keys G) cur)); auto.
  eapply net_measure_nonneg; [apply Hg|reflexivity].
Qed.

(** Whatever the fuel, a converged run ends in a state that satisfies the
    invariant and that one more round leaves alone. *)
Lemma loop_converged fuel : forall i cur cur' it,
  good G cur -> dvr_loop fuel i cur = Converged cur' it ->
  good G cur' /\ round cur' = Ok cur' false.
Proof.
  induction fuel as [|fuel IH]; simpl; intros i cur cur' it Hg H; [discriminate|].
  destruct (round cur) as [cur1 u|cur1] eqn:Hr; [|discriminate].
  pose proof (round_good ok G W _ _ _ Hg Hr) as Hg1.
  destruct u.
  - eapply IH; eauto.
  - injection H as <- <-.
    pose proof (round_false_same _ _ Hr) as ->. auto.
Qed.

End Termination.

Lemma nonneg_ok c : (0 <=? c) = true -> 0 <= c.
Proof. apply Z.leb_le. Qed.

Lemma pos_ok c : (0 <? c) = true -> 0 < c.
Proof. apply Z.ltb_lt. Qed.

Lemma pos_nonneg_ok c : (0 <? c) = true -> 0 <= c.
Proof. intros H. apply Z.ltb_lt in H. lia. Qed.

(** What a converged run has computed, for any accepted link costs that
    are non-negative. *)
Lemma converged_entry_correct ok ops fuel net' it a b :
  (forall c, ok c = true -> 0 <= c) ->
  forallb (op_cost_ok ok) ops = true ->
  distance_vector_routing fuel (build ops) = Converged net' it ->
  In a (keys (build ops)) -> In b (keys (build ops)) ->
  exists k h,
    get (table_of net' a) b = Some (k, h) /\
    shortest_path_cost (build ops) a b k /\
    sound_entry (build ops) a b (k, h) /\
    (a = b -> k = Fin 0 /\ h = Some a).
Proof.
  intros Hnn Hc Hrun Ha Hb. pose proof (wf_build _ ops Hc) as W.
  destruct (loop_converged _ _ W fuel _ _ _ _ (good_init _ _ W) Hrun) as [Hg Hfix].
  exact (entry_correct _ _ W Hnn _ Hg Hfix a b Ha Hb).
Qed.

Lemma any_cost_ok ops : forallb (op_cost_ok (fun _ => true)) ops = true.
Proof. induction ops as [|[n|a b c] ops IH]; simpl; auto. Qed.

(** Whatever the sign of the link costs, a finite entry is backed by a
    walk, so an unreachable destination can only hold [(inf, None)]. *)
Lemma unreachable_entry ops fuel net' it a b :
  distance_vector_routing fuel (build ops) = Converged net' it ->
  In a (keys (build ops)) -> In b (keys (build ops)) ->
  ~ reachable (build ops) a b ->
  get (table_of net' a) b = Some (Inf, None).
Proof.
  intros Hrun Ha Hb Hun.
  pose proof (wf_build _ ops (any_cost_ok ops)) as W.
  destruct (loop_converged _ _ W fuel _ _ _ _ (good_init _ _ W) Hrun) as [Hg _].
  destruct (cur_node _ _ Hg a Ha) as [nd Hnd].
  pose proof (proj2 Hg _ _ Hnd) as Htbl.
  rewrite (table_of_in _ _ W _ Hg _ _ Hnd).
  destruct (keys_get _ _ (tbl_full _ _ _ Htbl _ Hb)) as [[k h] Hget].
  destruct (tbl_sound _ _ _ Htbl _ _ (get_in _ _ _ Hget)) as [_ Hs].
  destruct k as [d|]; simpl in Hs.
  - exfalso. apply Hun.
    destruct (sound_entry_path _ _ _ _ _ Hs) as [hops Hp]. now exists hops, d.
  - now subst h.
Qed.

Lemma dvr_loop_more_fuel fuel : forall i net net' it,
  dvr_loop fuel i net = Converged net' it ->
  forall fuel', (fuel <= fuel')%nat -> dvr_loop fuel' i net = Converged net' it.
Proof.
  induction fuel as [|fuel IH]; simpl; intros i net net' it H fuel' Hle;
    [discriminate|].
  destruct fuel' as [|fuel']; [lia|]. simpl.
  destruct (round net) as [net1 u|net1]; [|discriminate].
  destruct u; [|assumption].
  apply IH; [assumption|lia].
Qed.

(** C2. Termination: on a network built from links of non-negative cost,
    the convergence loop reaches, after finitely many rounds, a round in
    which no [update_routing_table] call returns [True], and exits; any
    larger amount of fuel gives the same result. *)
Theorem dvr_terminates (ops : list op) :
  costs_nonnegative ops = true ->
  exists fuel0 net' it,
    (forall fuel, (fuel0 <= fuel)%nat ->
                  distance_vector_routing fuel (build ops) = Converged net' it) /\
    round net' = Ok net' false.
Proof.
  intros Hc. pose proof (wf_build _ ops Hc) as W.
  destruct (loop_terminates _ _ W nonneg_ok _ (good_init _ _ W) 0%nat)
    as (fuel0 & net' & it & Hloop & _ & Hfix).
  exists fuel0, net', it. split; [|assumption].
  intros fuel Hle. unfold distance_vector_routing.
  eapply dvr_loop_more_fuel; eauto.
Qed.

Lemma dvr_terminates_witness :
  exists fuel0 net' it,
    (forall fuel, (fuel0 <= fuel)%nat ->
                  distance_vector_routing fuel (build main_ops) = Converged net' it) /\
    round net' = Ok net' false.
Proof. apply (dvr_terminates main_ops). reflexivity. Defined.

(** C9. A disconnected graph does not prevent convergence: on a network
    built from links of non-negative cost, connected or not, the run
    terminates, and every destination that lies in another connected
    component than a node, that is, cannot be reached from it, ends up
    with the entry [(inf, None)] in that node's table. *)
Theorem unreachable_stays_infinite (ops : list op) :
  costs_nonnegative ops = true ->
  (exists fuel net' it,
     distance_vector_routing fuel (build ops) = Converged net' it) /\
  (forall fuel net' it,
     distance_vector_routing fuel (build ops) = Converged net' it ->
     forall a b, In a (keys (build ops)) -> In b (keys (build ops)) ->
                 ~ reachable (build ops) a b ->
                 get (table_of net' a) b = Some (Inf, None)).
Proof.
  intros Hc. pose proof (wf_build _ ops Hc) as W. split.
  - destruct (loop_terminates _ _ W nonneg_ok _ (good_init _ _ W) 0%nat)
      as (fuel & net' & it & Hloop & _). eauto.
  - intros fuel net' it Hrun a b Ha Hb Hun. eapply unreachable_entry; eauto.
Qed.

Lemma unreachable_stays_infinite_witness :
  (exists fuel net' it,
     distance_vector_routing fuel (build split_ops) = Converged net' it) /\
  (forall fuel net' it,
     distance_vector_routing fuel (build split_ops) = Converged net' it ->
     forall a b, In a (keys (build split_ops)) -> In b (keys (build split_ops)) ->
                 ~ reachable (build split_ops) a b ->
                 get (table_of net' a) b = Some (Inf, None)).
Proof. apply (unreachable_stays_infinite split_ops). reflexivity. Defined.

(** In the split network the run stops after one round and [A] holds
    [(inf, None)] for [C] and [D]. *)
Example split_tables :
  final_tables (distance_vector_routing 1 (build split_ops)) =
  [("A", [("B", (Fin 1, Some "B")); ("C", (Inf, None));
          ("D", (Inf, None)); ("A", (Fin 0, Some "A"))]);
   ("B", [("A", (Fin 1, Some "A")); ("C", (Inf, None));
          ("D", (Inf, None)); ("B", (Fin 0, Some "B"))]);
   ("C", [("D", (Fin 2, Some "D")); ("A", (Inf, None));
          ("B", (Inf, None)); ("C", (Fin 0, Some "C"))]);
   ("D", [("C", (Fin 2, Some "C")); ("A", (Inf, None));
          ("B", (Inf, None)); ("D", (Fin 0, Some "D"))])].
Proof. reflexivity. Qed.

(** C1, as amended. On a network built from links of positive cost the
    run terminates, and in the converged tables the cost node [a] records
    for [b] is the true shortest-path cost; the node's own entry has next
    hop [a], an unreachable destination has none, and for any other
    destination the next hop is a neighbor of [a] that starts a shortest
    path to [b] visiting no node twice. *)
Theorem converges_to_shortest_paths (ops : list op) :
  costs_positive ops = true ->
  (exists fuel net' it,
     distance_vector_routing fuel (build ops) = Converged net' it) /\
  (forall fuel net' it,
     distance_vector_routing fuel (build ops) = Converged net' it ->
     forall a b, In a (keys (build ops)) -> In b (keys (build ops)) ->
     exists k h,
       get (table_of net' a) b = Some (k, h) /\
       shortest_path_cost (build ops) a b k /\
       (a = b -> h = Some a) /\
       (k = Inf -> h = None) /\
       (a <> b -> k <> Inf ->
        exists n c, h = Some n /\ link (build ops) a n = Some c /\
                    on_shortest_path (build ops) a n b)).
Proof.
  intros Hc. pose proof (wf_build _ ops Hc) as W. split.
  - destruct (loop_terminates _ _ W pos_nonneg_ok _ (good_init _ _ W) 0%nat)
      as (fuel & net' & it & Hloop & _). eauto.
  - intros fuel net' it Hrun a b Ha Hb.
    destruct (converged_entry_correct _ _ _ _ _ a b pos_nonneg_ok Hc Hrun Ha Hb)
      as (k & h & Hget & Hsp & Hs & Hself).
    exists k, h. repeat split; auto.
    + intros E. now destruct (Hself E).
    + intros ->. exact Hs.
    + intros Hne Hk. destruct k as [d|]; [|contradiction]. simpl in Hs.
      destruct Hs as [[E _]|(_ & n & hops & -> & Hp)]; [contradiction|].
      pose proof Hp as [Hcost _]. simpl in Hcost.
      destruct (link (build ops) a n) as [c|] eqn:El; [|discriminate].
      exists n, c. repeat split; auto.
      exists hops, d. split; [exact Hp|]. split; [exact Hsp|].
      eapply (shortest_nodup _ _ W pos_ok); eauto.
Qed.

Lemma converges_to_shortest_paths_witness :
  (exists fuel net' it,
     distance_vector_routing fuel (build main_ops) = Converged net' it) /\
  (forall fuel net' it,
     distance_vector_routing fuel (build main_ops) = Converged net' it ->
     forall a b, In a (keys (build main_ops)) -> In b (keys (build main_ops)) ->
     exists k h,
       get (table_of net' a) b = Some (k, h) /\
       shortest_path_cost (build main_ops) a b k /\
       (a = b -> h = Some a) /\
       (k = Inf -> h = None) /\
       (a <> b -> k <> Inf ->
        exists n c, h = Some n /\ link (build main_ops) a n = Some c /\
                    on_shortest_path (build main_ops) a n b)).
Proof. apply (converges_to_shortest_paths main_ops). reflexivity. Defined.

(** C1, as stated, fails on the topology of [main]: the converged entry of
    [A] for [A] itself is [(0, A)], and [A] is not a neighbor of [A].  It
    also fails on two links that do not meet, where [A] records no next hop
    for [C]. *)
Lemma own_entry_next_hop_not_neighbor :
  costs_positive main_ops = true /\ ~ every_next_hop_is_neighbor main_ops /\
  costs_positive split_ops = true /\ ~ every_next_hop_is_neighbor split_ops.
Proof.
  split; [reflexivity|]. split; [|split; [reflexivity|]]; intros H.
  - destruct (H 3%nat main_converged 2%nat eq_refl "A" "A")
      as (k & n & c & Hget & _ & Hlink & _); [simpl; auto ..|].
    vm_compute in Hget. injection Hget as <- <-.
    vm_compute in Hlink. discriminate.
  - destruct (H 1%nat _ 0%nat eq_refl "A" "C")
      as (k & n & c & Hget & _); [simpl; auto ..|].
    vm_compute in Hget. discriminate.
Qed.

(** The converged tables of [main]: [A] reaches [C] at cost 3 and [D] at
    cost 4, both through [B]. *)
Example main_tables :
  final_tables (distance_vector_routing 3 (build main_ops)) =
  [("A", [("B", (Fin 1, Some "B")); ("C", (Fin 3, Some "B"));
          ("D", (Fin 4, Some "B")); ("A", (Fin 0, Some "A"))]);
   ("B", [("A", (Fin 1, Some "A")); ("C", (Fin 2, Some "C"));
          ("D", (Fin 3, Some "C")); ("B", (Fin 0, Some "B"))]);
   ("C", [("A", (Fin 3, Some "B")); ("B", (Fin 2, Some "B"));
          ("D", (Fin 1, Some "D")); ("C", (Fin 0, Some "C"))]);
   ("D", [("B", (Fin 3, Some "C")); ("C", (Fin 1, Some "C"));
          ("A", (Fin 4, Some "C")); ("D", (Fin 0, Some "D"))])].
Proof. reflexivity. Qed.

(** The expected costs of the example scenario, from [A]: 0, 1, 3 and 4
    are the true shortest-path costs. *)
Example main_shortest_from_A :
  shortest_path_cost (build main_ops) "A" "A" (Fin 0) /\
  shortest_path_cost (build main_ops) "A" "B" (Fin 1) /\
  shortest_path_cost (build main_ops) "A" "C" (Fin 3) /\
  shortest_path_cost (build main_ops) "A" "D" (Fin 4).
Proof.
  assert (H : forall b, In b ["A"; "B"; "C"; "D"] ->
              exists k h, get (table_of main_converged "A") b = Some (k, h) /\
                          shortest_path_cost (build main_ops) "A" b k).
  { intros b Hb.
    destruct (converged_entry_correct (fun c => 0 <? c) main_ops 3 main_converged 2
                "A" b pos_nonneg_ok eq_refl eq_refl)
      as (k & h & Hget & Hsp & _); [simpl; auto|exact Hb|eauto]. }
  split; [|split; [|split]].
  - destruct (H "A") as (k & h & Hget & Hsp); [simpl; auto|].
    vm_compute in Hget. now injection Hget as <- <-.
  - destruct (H "B") as (k & h & Hget & Hsp); [simpl; auto|].
    vm_compute in Hget. now injection Hget as <- <-.
  - destruct (H "C") as (k & h & Hget & Hsp); [simpl; auto|].
    vm_compute in Hget. now injection Hget as <- <-.
  - destruct (H "D") as (k & h & Hget & Hsp); [simpl; auto 6|].
    vm_compute in Hget. now injection Hget as <- <-.
Qed.

(** * Construction of the topology, seen from outside *)

Lemma keys_add_node_app net n : exists extra, keys (add_node net n) = keys net ++ extra.
Proof.
  unfold add_node. destruct (mem net n) eqn:E.
  - exists []. now rewrite app_nil_r.
  - exists [n]. apply keys_set_new. rewrite <- mem_keys. congruence.
Qed.

(** X1. [add_link] records the cost on both ends, whatever was there
    before, and touches no other link; both endpoints are nodes afterwards,
    and the nodes that existed keep their place, new ones coming last. *)
Theorem add_link_links (net : Network) (a b : string) (c : Z) :
  (forall x y,
     link (add_link net a b c) x y =
     if (String.eqb x a && String.eqb y b) || (String.eqb x b && String.eqb y a)
     then Some c
     else link net x y) /\
  In a (keys (add_link net a b c)) /\
  In b (keys (add_link net a b c)) /\
  exists extra, keys (add_link net a b c) = keys net ++ extra.
Proof.
  repeat split.
  - intros x y. rewrite link_add_link.
    rewrite (String.eqb_sym b x), (String.eqb_sym a y),
      (String.eqb_sym a x), (String.eqb_sym b y).
    now rewrite orb_comm.
  - unfold add_link. rewrite !keys_adjust.
    apply keys_add_node, keys_add_node_self.
  - unfold add_link. rewrite !keys_adjust. apply keys_add_node_self.
  - unfold add_link. rewrite !keys_adjust.
    destruct (keys_add_node_app net a) as [e1 H1].
    destruct (keys_add_node_app (add_node net a) b) as [e2 H2].
    exists (e1 ++ e2). now rewrite H2, H1, app_assoc.
Qed.

(** X2. Whatever calls built it, a network is well formed: node names are
    unique, every node is stored under its own name, its neighbors are
    distinct and are nodes of the network, and before initialisation its
    routing table holds exactly its direct links, each as
    [(link cost, neighbor)], in the order of the neighbor list. *)
Theorem built_network_well_formed (ops : list op) :
  NoDup (keys (build ops)) /\
  (forall k nd,
     get (build ops) k = Some nd ->
     name nd = k /\
     NoDup (keys (neighbors nd)) /\
     (forall nb, In nb (keys (neighbors nd)) -> In nb (keys (build ops))) /\
     routing_table nd = map seed_entry (neighbors nd)).
Proof.
  pose proof (wf_build _ ops (any_cost_ok ops)) as W. split; [apply W|].
  intros k nd H. apply get_in in H. repeat split.
  - eapply wf_names; eauto.
  - eapply wf_nbr_keys; eauto.
  - intros nb Hnb. apply keys_get in Hnb as [c Hc]. apply get_in in Hc.
    now destruct (wf_nbrs _ _ W _ _ _ _ H Hc).
  - eapply wf_seeded; eauto.
Qed.

(** X3. A built network is undirected: the cost [a] records for its link
    to [b] is the cost [b] records for its link to [a], a missing link
    being missing on both sides. *)
Theorem built_network_undirected (ops : list op) (a b : string) :
  link (build ops) a b = link (build ops) b a.
Proof. apply link_symmetric. Qed.

(** * Initialisation, entry by entry *)

Lemma set_same {V : Type} (d : dict V) k v : get d k = Some v -> set d k v = d.
Proof.
  induction d as [|[k0 v0] d IH]; simpl; [discriminate|].
  destruct (String.eqb_spec k0 k) as [->|Hne].
  - now intros [= ->].
  - intros H. now rewrite IH.
Qed.

Lemma init_fold_get self all : forall rt d,
  d <> self ->
  get (fold_left (init_step self) all rt) d =
  match get rt d with
  | Some e => Some e
  | None => if existsb (String.eqb d) all then Some (Inf, None) else None
  end.
Proof.
  induction all as [|x all IH]; intros rt d Hd; cbn [fold_left existsb].
  - now destruct (get rt d).
  - rewrite IH by assumption.
    destruct (init_step_cases self rt x) as [[E Hx]|[E [Hxs Hx]]]; rewrite E.
    + destruct (get rt d) as [e|] eqn:Eg; [reflexivity|].
      destruct (String.eqb_spec d x) as [->|Hdx]; [|reflexivity].
      destruct Hx as [Hx|Hx]; [contradiction|].
      apply keys_get in Hx as [e He]. congruence.
    + rewrite get_set.
      destruct (String.eqb_spec x d) as [->|Hxd].
      * apply get_none_keys in Hx. rewrite Hx, String.eqb_refl. reflexivity.
      * destruct (get rt d) as [e|]; [reflexivity|].
        destruct (String.eqb_spec d x) as [->|_]; [contradiction|reflexivity].
Qed.

Lemma init_fold_id self all : forall rt,
  (forall x, In x all -> x = self \/ In x (keys rt)) ->
  fold_left (init_step self) all rt = rt.
Proof.
  induction all as [|x all IH]; intros rt H; cbn [fold_left]; [reflexivity|].
  destruct (init_step_cases self rt x) as [[E _]|[E [Hxs Hx]]]; rewrite E.
  - apply IH. intros y Hy. apply H. now right.
  - destruct (H x (or_introl eq_refl)); contradiction.
Qed.

Lemma initialize_get (n : Node) (all_nodes : list string) (d : string) :
  get (routing_table (initialize_routing_table n all_nodes)) d =
  if String.eqb d (name n) then Some (Fin 0, Some (name n))
  else match get (routing_table n) d with
       | Some e => Some e
       | None => if existsb (String.eqb d) all_nodes then Some (Inf, None) else None
       end.
Proof.
  unfold initialize_routing_table. simpl. rewrite get_set, String.eqb_sym.
  destruct (String.eqb_spec d (name n)) as [->|Hne]; [reflexivity|].
  now apply init_fold_get.
Qed.

(** X4. What [initialize_routing_table] leaves under each destination: the
    node's own name maps to [(0, name)] whatever was there; any other
    destination keeps the entry it had; one that had none gets
    [(inf, None)] if it is listed in [all_nodes], and stays absent
    otherwise. *)
Theorem initialize_entries (n : Node) (all_nodes : list string) (d : string) :
  get (routing_table (initialize_routing_table n all_nodes)) d =
  if String.eqb d (name n) then Some (Fin 0, Some (name n))
  else match get (routing_table n) d with
       | Some e => Some e
       | None => if existsb (String.eqb d) all_nodes then Some (Inf, None) else None
       end.
Proof. apply initialize_get. Qed.

(** X5. [initialize_routing_table] is idempotent: a second call with the
    same node list changes nothing, and the name and links of the node are
    never touched. *)
Theorem initialize_idempotent (n : Node) (all_nodes : list string) :
  initialize_routing_table (initialize_routing_table n all_nodes) all_nodes =
  initialize_routing_table n all_nodes /\
  name (initialize_routing_table n all_nodes) = name n /\
  neighbors (initialize_routing_table n all_nodes) = neighbors n.
Proof.
  split; [|split; reflexivity].
  unfold initialize_routing_table at 1. unfold set_routing_table.
  set (n1 := initialize_routing_table n all_nodes).
  assert (Hfold : fold_left (init_step (name n1)) all_nodes (routing_table n1) =
                  routing_table n1).
  { apply init_fold_id. intros x Hx. unfold n1. simpl.
    destruct (string_dec x (name n)) as [->|Hne]; [now left|right].
    apply in_keys_set. right. now apply init_fold_keys. }
  rewrite Hfold, set_same.
  - reflexivity.
  - exact (initialize_self_entry n all_nodes).
Qed.

Lemma get_seeded (nbrs : dict Z) b :
  get (map seed_entry nbrs) b =
  option_map (fun c => (Fin c, Some b)) (get nbrs b).
Proof.
  induction nbrs as [|[k0 c0] l IH]; simpl; [reflexivity|].
  destruct (String.eqb_spec k0 b) as [->|_]; [reflexivity|apply IH].
Qed.

Lemma get_map_nodes (f : Node -> Node) (l : Network) a :
  get (map (fun kn => (fst kn, f (snd kn))) l) a = option_map f (get l a).
Proof.
  induction l as [|[k0 n0] l IH]; simpl; [reflexivity|].
  destruct (String.eqb k0 a); [reflexivity|apply IH].
Qed.

Section InitialTables.
Variables (ok : Z -> bool) (G : Network).
Hypothesis W : wf_topology ok G.

Lemma in_keys_existsb b (l : list string) :
  existsb (String.eqb b) l = true <-> In b l.
Proof.
  rewrite existsb_exists. split.
  - intros [x [Hx E]]. apply String.eqb_eq in E. now subst.
  - intros Hb. exists b. split; [assumption|apply String.eqb_refl].
Qed.

Lemma initial_table_of a nd :
  In (a, nd) G ->
  table_of (initialize_routing_tables G) a =
  routing_table (initialize_routing_table nd (keys G)).
Proof.
  intros Hin. unfold table_of, initialize_routing_tables.
  rewrite (get_map_nodes (fun n0 => initialize_routing_table n0 (keys G))).
  now rewrite (in_get_nodup G a nd (wf_keys _ _ W) Hin).
Qed.

Lemma initial_entry a nd b :
  In (a, nd) G ->
  get (table_of (initialize_routing_tables G) a) b =
  if String.eqb b a then Some (Fin 0, Some a)
  else match link G a b with
       | Some c => Some (Fin c, Some b)
       | None => if existsb (String.eqb b) (keys G) then Some (Inf, None) else None
       end.
Proof.
  intros Hin.
  rewrite (initial_table_of _ _ Hin), initialize_get.
  rewrite (wf_names _ _ W _ _ Hin), (wf_seeded _ _ W _ _ Hin), get_seeded.
  destruct (String.eqb b a); [reflexivity|].
  rewrite (link_in _ _ W _ _ b Hin).
  now destruct (get (neighbors nd) b).
Qed.

End InitialTables.

(** X6. After [initialize_routing_tables] on a built network, the table of
    node [a] has one row per node of the network and no other: [(0, a)]
    for [a] itself, [(link cost, b)] for a neighbor [b], and [(inf, None)]
    for every other node. *)
Theorem initial_tables (ops : list op) (a : string) :
  In a (keys (build ops)) ->
  let rt := table_of (initialize_routing_tables (build ops)) a in
  NoDup (keys rt) /\
  (forall b, In b (keys rt) <-> In b (keys (build ops))) /\
  (forall b, In b (keys (build ops)) ->
     get rt b =
     Some (if String.eqb b a then (Fin 0, Some a)
           else match link (build ops) a b with
                | Some c => (Fin c, Some b)
                | None => (Inf, None)
                end)).
Proof.
  intros Ha rt.
  pose proof (wf_build _ ops (any_cost_ok ops)) as W.
  apply keys_get in Ha as [nd Hget]. pose proof (get_in _ _ _ Hget) as Hin.
  pose proof (initial_entry _ _ W a nd) as Hentry.
  fold rt in Hentry.
  repeat split.
  - unfold rt. rewrite (initial_table_of _ _ W _ _ Hin).
    unfold initialize_routing_table. simpl.
    apply nodup_keys_set, init_fold_nodup.
    rewrite (wf_seeded _ _ W _ _ Hin). unfold seed_entry.
    rewrite (keys_map (fun kc => (Fin (snd kc), Some (fst kc)))).
    eapply wf_nbr_keys; eauto.
  - intros Hb. apply keys_get in Hb as [e He]. rewrite Hentry in He by assumption.
    destruct (String.eqb_spec b a) as [->|Hne]; [eapply in_keys; eauto|].
    destruct (link (build ops) a b) as [c|] eqn:El.
    + now destruct (link_some _ _ W _ _ _ El) as (_ & _ & _ & Hb & _).
    + apply in_keys_existsb. destruct (existsb _ _); [reflexivity|discriminate].
  - intros Hb. apply mem_keys. unfold mem. rewrite Hentry by assumption.
    destruct (String.eqb b a); [reflexivity|].
    destruct (link (build ops) a b); [reflexivity|].
    apply in_keys_existsb in Hb. now rewrite Hb.
  - intros b Hb. rewrite Hentry by assumption.
    destruct (String.eqb b a); [reflexivity|].
    destruct (link (build ops) a b); [reflexivity|].
    apply in_keys_existsb in Hb. now rewrite Hb.
Qed.

Lemma initial_tables_witness :
  let rt := table_of (initialize_routing_tables (build main_ops)) "A" in
  NoDup (keys rt) /\
  (forall b, In b (keys rt) <-> In b (keys (build main_ops))) /\
  (forall b, In b (keys (build main_ops)) ->
     get rt b =
     Some (if String.eqb b "A" then (Fin 0, Some "A")
           else match link (build main_ops) "A" b with
                | Some c => (Fin c, Some b)
                | None => (Inf, None)
                end)).
Proof. apply (initial_tables main_ops "A"). simpl. auto. Defined.

(** * More on a single call *)

Lemma fold_relax_upper self c nb (t : routing_table_t) : forall rt u rt' u',
  fold_left (relax_step self c nb) t (rt, u) = (rt', u') ->
  forall d nc h, In (d, (nc, h)) t -> d <> self ->
                 cost_leb (current_cost rt' d) (cost_add c nc) = true.
Proof.
  induction t as [|[k0 [nc0 h0]] t IH]; cbn [fold_left]; intros rt u rt' u' Hf d nc h Hin Hd.
  - contradiction.
  - destruct (relax_step_cases self c nb rt u k0 nc0 h0) as [[E Hc]|[E [Hne Hlt]]];
      rewrite E in Hf; (destruct Hin as [[= -> -> ->]|Hin]; [|eapply IH; eauto]).
    + destruct Hc as [Hc|Hc]; [contradiction|].
      eapply cost_leb_trans; [eapply fold_relax_cost_le; eauto|].
      unfold cost_leb. now rewrite Hc.
    + pose proof (fold_relax_cost_le _ _ _ _ _ _ _ _ Hf d) as Hle.
      now rewrite current_cost_set_eq in Hle.
Qed.

Lemma fold_relax_quiet self c nb (t : routing_table_t) rt u :
  (forall d nc h, In (d, (nc, h)) t -> d <> self ->
                  cost_leb (current_cost rt d) (cost_add c nc) = true) ->
  fold_left (relax_step self c nb) t (rt, u) = (rt, u).
Proof.
  induction t as [|[k0 [nc0 h0]] t IH]; cbn [fold_left]; intros H; [reflexivity|].
  destruct (relax_step_cases self c nb rt u k0 nc0 h0) as [[E _]|[E [Hne Hlt]]];
    rewrite E.
  - apply IH. intros d nc h Hin. apply (H d nc h). now right.
  - specialize (H k0 nc0 h0 (or_introl eq_refl) Hne).
    unfold cost_leb in H. rewrite Hlt in H. discriminate.
Qed.

(** X7. Delivering the same neighbor table a second time is a no-op: after
    a successful [update_routing_table], the same call on the resulting
    node returns [False] and leaves the node as it is. *)
Theorem update_idempotent (n n1 : Node) (neighbor : string)
  (neighbor_table : routing_table_t) (u : bool) :
  update_routing_table n neighbor neighbor_table = Ok n1 u ->
  update_routing_table n1 neighbor neighbor_table = Ok n1 false.
Proof.
  intros H. apply update_ok_inv in H as (c & rt' & Hc & Hf & ->).
  unfold update_routing_table. simpl. rewrite Hc.
  rewrite fold_relax_quiet; [reflexivity|].
  intros d nc h Hin Hd. eapply fold_relax_upper; eauto.
Qed.

Lemma update_idempotent_witness :
  update_routing_table
    (mkNode "A" [("B", 1); ("C", 4)]
            [("B", (Fin 1, Some "B")); ("C", (Fin 3, Some "B"));
             ("D", (Fin 6, Some "B")); ("A", (Fin 0, Some "A"))])
    "B" example_table =
  Ok (mkNode "A" [("B", 1); ("C", 4)]
             [("B", (Fin 1, Some "B")); ("C", (Fin 3, Some "B"));
              ("D", (Fin 6, Some "B")); ("A", (Fin 0, Some "A"))])
     false.
Proof.
  apply (update_idempotent example_node _ "B" example_table true). reflexivity.
Defined.

(** * What a run never does *)

Lemma topo_eq_refl net : topo_eq net net.
Proof. unfold topo_eq. induction net; constructor; auto. Qed.

Lemma topo_eq_trans n1 n2 : topo_eq n1 n2 -> forall n3, topo_eq n2 n3 -> topo_eq n1 n3.
Proof.
  unfold topo_eq. induction 1 as [|x y l l' [Hk [Hn Hb]] _ IH]; intros n3 H;
    inversion H as [|? z ? l3 [Hk' [Hn' Hb']] Hrest]; subst; constructor; auto.
  repeat split; congruence.
Qed.

Lemma topo_eq_link G cur : topo_eq G cur -> forall a b, link cur a b = link G a b.
Proof.
  unfold topo_eq, link.
  induction 1 as [|[k g] [k' c] l l' [Hk [_ Hb]] _ IH]; intros a b; simpl;
    [reflexivity|].
  simpl in Hk, Hb. subst k'.
  destruct (String.eqb k a); [now rewrite Hb|apply IH].
Qed.

Lemma relax_neighbors_topo sent nbs : forall nd u,
  name (result_state (relax_neighbors sent nbs nd u)) = name nd /\
  neighbors (result_state (relax_neighbors sent nbs nd u)) = neighbors nd.
Proof.
  induction nbs as [|nb nbs IH]; simpl; intros nd u; [auto|].
  destruct (get sent nb) as [t|]; [|auto].
  pose proof (update_name nd nb t) as Hn.
  pose proof (update_neighbors nd nb t) as Hb.
  destruct (update_routing_table nd nb t) as [nd1 u1|nd1]; simpl in *; [|auto].
  destruct (IH nd1 (if u1 then true else u)) as [IHn IHb].
  split; congruence.
Qed.

Lemma relax_nodes_topo sent nodes : forall u,
  topo_eq nodes (result_state (relax_nodes sent nodes u)).
Proof.
  induction nodes as [|[k nd] nodes IH]; simpl; intros u; [constructor|].
  destruct (relax_neighbors_topo sent (keys (neighbors nd)) nd u) as [Hn Hb].
  destruct (relax_neighbors sent (keys (neighbors nd)) nd u) as [nd1 u1|nd1];
    simpl in *.
  - specialize (IH u1).
    destruct (relax_nodes sent nodes u1) as [rest u2|rest]; simpl in *;
      constructor; auto.
  - constructor; [auto|apply topo_eq_refl].
Qed.

Lemma dvr_loop_topo fuel : forall i net, topo_eq net (run_network (dvr_loop fuel i net)).
Proof.
  induction fuel as [|fuel IH]; simpl; intros i net; [apply topo_eq_refl|].
  pose proof (relax_nodes_topo (sent_tables_of net) net false) as H.
  fold (round net) in H.
  destruct (round net) as [net1 u|net1]; simpl in *; [|assumption].
  destruct u; [|assumption].
  eapply topo_eq_trans; eauto.
Qed.

(** X8. [distance_vector_routing] never changes the topology, however the
    run ends: the network it leaves has the same nodes in the same order,
    each with the name and neighbor links it had, and so the same link
    costs; only routing tables are written. *)
Theorem dvr_keeps_topology (fuel : nat) (net : Network) :
  let net' := run_network (distance_vector_routing fuel net) in
  keys net' = keys net /\
  topo_eq net net' /\
  (forall a b, link net' a b = link net a b).
Proof.
  intros net'.
  assert (T : topo_eq net net').
  { unfold net', distance_vector_routing.
    eapply topo_eq_trans; [|apply dvr_loop_topo].
    unfold initialize_routing_tables.
    apply (topo_eq_map (fun nd => initialize_routing_table nd (keys net))).
    intros nd. split; reflexivity. }
  repeat split.
  - now apply topo_eq_keys.
  - exact T.
  - now apply topo_eq_link.
Qed.

Section Safety.
Variables (ok : Z -> bool) (G : Network).
Hypothesis W : wf_topology ok G.

Lemma loop_good fuel : forall i cur,
  good G cur ->
  good G (run_network (dvr_loop fuel i cur)) /\
  forall net', dvr_loop fuel i cur <> Aborted net'.
Proof.
  induction fuel as [|fuel IH]; simpl; intros i cur Hg.
  - split; [assumption|discriminate].
  - destruct (round_ok ok G W cur Hg) as (cur1 & u & Hr). rewrite Hr.
    pose proof (round_good ok G W _ _ _ Hg Hr) as Hg1.
    destruct u; [now apply IH|]. split; [assumption|discriminate].
Qed.

End Safety.

(** X9. On a built network no lookup of the run can fail, whatever the
    link costs: [distance_vector_routing] either converges or is still
    iterating when the fuel runs out, and never stops on a [KeyError]. *)
Theorem dvr_never_aborts (ops : list op) (fuel : nat) :
  exists net',
    (exists it, distance_vector_routing fuel (build ops) = Converged net' it) \/
    distance_vector_routing fuel (build ops) = OutOfFuel net'.
Proof.
  pose proof (wf_build _ ops (any_cost_ok ops)) as W.
  destruct (loop_good _ _ W fuel 0%nat _ (good_init _ _ W)) as [_ H].
  unfold distance_vector_routing in *.
  destruct (dvr_loop fuel 0 (initialize_routing_tables (build ops)))
    as [net' it|net'|net'].
  - exists net'. left. now exists it.
  - destruct (H net' eq_refl).
  - exists net'. now right.
Qed.

(** X10. No phantom routes: at every round of a run on a built network,
    whatever the link costs, an entry with a finite cost for another node
    records the cost of an actual walk of the graph that starts with the
    recorded next hop, the own entry is [(0, self)], an infinite cost has
    no next hop, and every destination listed is a node. *)
Theorem routes_always_backed (ops : list op) (fuel : nat) (a b : string)
  (k : cost) (h : option string) :
  get (table_of (run_network (distance_vector_routing fuel (build ops))) a) b =
    Some (k, h) ->
  In b (keys (build ops)) /\
  match k with
  | Inf => h = None
  | Fin d =>
      (a = b /\ d = 0 /\ h = Some a) \/
      (a <> b /\ exists n hops c,
          h = Some n /\ link (build ops) a n = Some c /\
          is_path (build ops) a (n :: hops) b d)
  end.
Proof.
  intros Hget.
  pose proof (wf_build _ ops (any_cost_ok ops)) as W.
  destruct (loop_good _ _ W fuel 0%nat _ (good_init _ _ W)) as [Hg _].
  fold (distance_vector_routing fuel (build ops)) in Hg.
  set (cur := run_network (distance_vector_routing fuel (build ops))) in *.
  unfold table_of in Hget.
  destruct (get cur a) as [nd|] eqn:Ea; [|discriminate].
  apply get_in in Ea. apply get_in in Hget.
  destruct (tbl_sound _ _ _ (proj2 Hg _ _ Ea) _ _ Hget) as [Hb Hs].
  split; [assumption|].
  destruct k as [d|]; simpl in Hs; [|assumption].
  destruct Hs as [Hs|(Hne & n & hops & -> & Hp)]; [now left|right].
  split; [assumption|].
  pose proof Hp as [Hc _]. simpl in Hc.
  destruct (link (build ops) a n) as [c|] eqn:El; [|discriminate].
  exists n, hops, c. auto.
Qed.

Lemma routes_always_backed_witness :
  In "D" (keys (build main_ops)) /\
  ((("A" = "D") /\ 5 = 0 /\ Some "C" = Some "A") \/
   ("A" <> "D" /\ exists n hops c,
       Some "C" = Some n /\ link (build main_ops) "A" n = Some c /\
       is_path (build main_ops) "A" (n :: hops) "D" 5)).
Proof.
  apply (routes_always_backed main_ops 1 "A" "D" (Fin 5) (Some "C")). reflexivity.
Defined.

(** * A round is one synchronous Bellman-Ford step *)

Lemma cost_leb_ltb_trans a b c :
  cost_leb a b = true -> cost_ltb b c = true -> cost_ltb a c = true.
Proof. intros; cost_cases. Qed.

Lemma cost_leb_antisym a b : cost_leb a b = true -> cost_leb b a = true -> a = b.
Proof. intros; cost_cases. f_equal. lia. Qed.

Lemma cost_leb_inf a : cost_leb a Inf = true.
Proof. cost_cases. Qed.

Lemma cost_leb_fin x y : x <= y -> cost_leb (Fin x) (Fin y) = true.
Proof. intros; cost_cases. Qed.

Lemma cost_add_mono c x y :
  cost_leb x y = true -> cost_leb (cost_add c x) (cost_add c y) = true.
Proof. intros; cost_cases. Qed.

Lemma fold_relax_achieved self c nb (t : routing_table_t) rt u rt' u' :
  fold_left (relax_step self c nb) t (rt, u) = (rt', u') ->
  forall d,
    current_cost rt' d = current_cost rt d \/
    exists nc h, In (d, (nc, h)) t /\ current_cost rt' d = cost_add c nc.
Proof.
  intros Hf.
  apply (fold_relax_inv self c nb
           (fun r => forall d,
              current_cost r d = current_cost rt d \/
              exists nc h, In (d, (nc, h)) t /\ current_cost r d = cost_add c nc)
           t) with (rt := rt) (u := u) (u' := u'); auto.
  intros rt0 k0 nc h HP Hin Hne Hlt d.
  destruct (string_dec k0 d) as [->|Hkd].
  - right. exists nc, h. split; [assumption|]. apply current_cost_set_eq.
  - rewrite current_cost_set_neq by assumption. apply HP.
Qed.

Section RoundCosts.
Variable sent : dict routing_table_t.

Lemma relax_neighbors_upper nbs : forall nd u nd' u',
  relax_neighbors sent nbs nd u = Ok nd' u' ->
  forall nb t c d nc h,
    In nb nbs -> get sent nb = Some t -> get (neighbors nd) nb = Some c ->
    In (d, (nc, h)) t -> d <> name nd ->
    cost_leb (current_cost (routing_table nd') d) (cost_add c nc) = true.
Proof.
  induction nbs as [|nb0 nbs IH]; simpl; intros nd u nd' u' H nb t c d nc h Hnb Ht Hc Hin Hd.
  - contradiction.
  - destruct (get sent nb0) as [t0|] eqn:Ht0; [|discriminate].
    destruct (update_routing_table nd nb0 t0) as [nd1 u1|] eqn:Hu; [|discriminate].
    pose proof (update_name nd nb0 t0) as Hn1.
    pose proof (update_neighbors nd nb0 t0) as Hb1.
    rewrite Hu in Hn1, Hb1. simpl in Hn1, Hb1.
    destruct Hnb as [->|Hnb].
    + rewrite Ht in Ht0. injection Ht0 as <-.
      eapply cost_leb_trans.
      * eapply node_steps_cost_le. eapply relax_neighbors_steps; eauto.
      * apply update_ok_inv in Hu as (c' & rt' & Hc' & Hf & ->). simpl.
        rewrite Hc in Hc'. injection Hc' as <-.
        eapply fold_relax_upper; eauto.
    + eapply (IH _ _ _ _ H nb t c d nc h); eauto; congruence.
Qed.

Lemma relax_neighbors_true nbs : forall nd u nd',
  relax_neighbors sent nbs nd u = Ok nd' true ->
  u = true \/
  exists d, cost_ltb (current_cost (routing_table nd') d)
                     (current_cost (routing_table nd) d) = true.
Proof.
  induction nbs as [|nb0 nbs IH]; simpl; intros nd u nd' H.
  - injection H as <- <-. now left.
  - destruct (get sent nb0) as [t0|] eqn:Ht0; [|discriminate].
    destruct (update_routing_table nd nb0 t0) as [nd1 u1|] eqn:Hu; [|discriminate].
    pose proof (relax_neighbors_steps _ _ _ _ _ _ H) as Hsteps.
    destruct (IH _ _ _ H) as [Hflag|[d Hlt]].
    + destruct u1; [|now left]. right.
      apply update_ok_inv in Hu as (c & rt' & _ & Hf & ->).
      apply fold_relax_true in Hf as [Hf|(d & _ & _ & Hlt)]; [discriminate|].
      exists d. eapply cost_leb_ltb_trans; [|exact Hlt].
      apply (node_steps_cost_le _ _ _ Hsteps d).
    + right. exists d. eapply cost_ltb_leb_trans; [exact Hlt|].
      destruct (update_cost_decreases _ _ _ _ _ Hu d) as [Heq|Hl].
      * rewrite (current_cost_get _ _ _ Heq). apply cost_leb_refl.
      * now apply cost_ltb_leb.
Qed.

Lemma relax_nodes_in nodes : forall u nodes' u',
  relax_nodes sent nodes u = Ok nodes' u' ->
  forall k nd, In (k, nd) nodes ->
    exists nd' u0 u1,
      relax_neighbors sent (keys (neighbors nd)) nd u0 = Ok nd' u1 /\
      In (k, nd') nodes'.
Proof.
  induction nodes as [|[k0 nd0] nodes IH]; simpl; intros u nodes' u' H k nd Hin.
  - contradiction.
  - destruct (relax_neighbors sent _ nd0 u) as [nd1 u1|] eqn:Hn; [|discriminate].
    destruct (relax_nodes sent nodes u1) as [rest u2|] eqn:Hr; [|discriminate].
    injection H as <- <-.
    destruct Hin as [[= <- <-]|Hin].
    + exists nd1, u, u1. split; [assumption|now left].
    + destruct (IH _ _ _ Hr k nd Hin) as (nd' & u0 & u3 & Hrel & Hin').
      exists nd', u0, u3. split; [assumption|now right].
Qed.

Lemma relax_nodes_true nodes : forall u nodes',
  relax_nodes sent nodes u = Ok nodes' true ->
  u = true \/
  exists k nd nd' d,
    In (k, nd) nodes /\ In (k, nd') nodes' /\
    cost_ltb (current_cost (routing_table nd') d)
             (current_cost (routing_table nd) d) = true.
Proof.
  induction nodes as [|[k0 nd0] nodes IH]; simpl; intros u nodes' H.
  - injection H as <- <-. now left.
  - destruct (relax_neighbors sent _ nd0 u) as [nd1 u1|] eqn:Hn; [|discriminate].
    destruct (relax_nodes sent nodes u1) as [rest u2|] eqn:Hr; [|discriminate].
    injection H as <- ->.
    destruct (IH _ _ Hr) as [->|(k & nd & nd' & d & Hin & Hin' & Hlt)].
    + destruct (relax_neighbors_true _ _ _ _ Hn) as [Hu|[d Hlt]]; [now left|].
      right. exists k0, nd0, nd1, d. repeat split; simpl; auto.
    + right. exists k, nd, nd', d. repeat split; simpl; auto.
Qed.

Lemma node_steps_achieved nd nd' :
  node_steps sent nd nd' ->
  forall d,
    current_cost (routing_table nd') d = current_cost (routing_table nd) d \/
    exists nb t c nc h,
      get sent nb = Some t /\ get (neighbors nd) nb = Some c /\
      In (d, (nc, h)) t /\
      current_cost (routing_table nd') d = cost_add c nc.
Proof.
  induction 1 as [|nd nb t nd1 u nd2 Hs Hu _ IH]; intros d; [now left|].
  pose proof (update_neighbors nd nb t) as Hb. rewrite Hu in Hb. simpl in Hb.
  apply update_ok_inv in Hu as (c & rt' & Hc & Hf & ->). simpl in *.
  destruct (IH d) as [Heq|(nb' & t' & c' & nc & h & Hs' & Hc' & Hin & E)].
  - rewrite Heq.
    destruct (fold_relax_achieved _ _ _ _ _ _ _ _ Hf d) as [E|(nc & h & Hin & E)];
      [now left|right].
    exists nb, t, c, nc, h. auto.
  - right. exists nb', t', c', nc, h. auto.
Qed.

Lemma node_steps_nodup nd nd' :
  node_steps sent nd nd' ->
  NoDup (keys (routing_table nd)) -> NoDup (keys (routing_table nd')).
Proof.
  induction 1 as [|nd nb t nd1 u nd2 Hs Hu _ IH]; intros Hnd; [assumption|].
  apply IH. apply update_ok_inv in Hu as (c & rt' & Hc & Hf & ->). simpl.
  eapply (fold_relax_inv _ _ _ (fun r => NoDup (keys r))); eauto.
  intros. now apply nodup_keys_set.
Qed.

End RoundCosts.

Section BellmanFord.
Variables (ok : Z -> bool) (G : Network).
Hypothesis W : wf_topology ok G.

Lemma init_nodup : tables_nodup (initialize_routing_tables G).
Proof.
  intros k nd' H. unfold initialize_routing_tables in H.
  apply in_map_iff in H as [[k0 nd0] [[= <- <-] H]].
  unfold initialize_routing_table. simpl.
  apply nodup_keys_set, init_fold_nodup.
  rewrite (wf_seeded _ _ W _ _ H). unfold seed_entry.
  rewrite (keys_map (fun kc => (Fin (snd kc), Some (fst kc)))).
  eapply wf_nbr_keys; eauto.
Qed.

Lemma round_nodup cur cur' u :
  tables_nodup cur -> round cur = Ok cur' u -> tables_nodup cur'.
Proof.
  intros Hnd H k nd' Hin. unfold round in H. apply relax_nodes_steps in H.
  destruct (forall2_in_right _ _ _ H _ Hin) as [[k0 nd] [Hin0 [_ Hs]]].
  eapply node_steps_nodup; eauto.
Qed.

Lemma loop_nodup fuel : forall i cur,
  good G cur -> tables_nodup cur ->
  tables_nodup (run_network (dvr_loop fuel i cur)).
Proof.
  induction fuel as [|fuel IH]; simpl; intros i cur Hg Hnd; [assumption|].
  destruct (round_ok ok G W cur Hg) as (cur1 & u & Hr). rewrite Hr.
  pose proof (round_good ok G W _ _ _ Hg Hr) as Hg1.
  pose proof (round_nodup _ _ _ Hnd Hr) as Hnd1.
  destruct u; [now apply IH|assumption].
Qed.

End BellmanFord.

Section BellmanFordRound.
Variables (ok : Z -> bool) (G : Network).
Hypothesis W : wf_topology ok G.
Variables (cur cur' : Network) (u : bool).
Hypothesis Hg : good G cur.
Hypothesis Hr : round cur = Ok cur' u.

Lemma round_upper a n c b :
  In a (keys G) -> link G a n = Some c -> a <> b ->
  cost_leb (current_cost (table_of cur' a) b)
           (cost_add c (current_cost (table_of cur n) b)) = true.
Proof.
  intros Ha Hl Hne. pose proof Hg as [T Hok].
  pose proof (round_good ok G W _ _ _ Hg Hr) as Hg'.
  destruct (cur_node _ _ Hg a Ha) as [nd Hnd].
  destruct (link_some ok G W _ _ _ Hl) as (_ & _ & _ & Hn & _).
  destruct (cur_node _ _ Hg n Hn) as [ndn Hndn].
  rewrite (cur_link ok G W _ _ _ n T Hnd) in Hl.
  rewrite (table_of_in ok G W _ Hg _ _ Hndn).
  unfold current_cost at 2. unfold get_default.
  destruct (get (routing_table ndn) b) as [[nc h]|] eqn:Eb;
    [|apply cost_leb_inf].
  simpl. apply get_in in Eb.
  pose proof Hr as Hr0. unfold round in Hr0.
  destruct (relax_nodes_in _ _ _ _ _ Hr0 _ _ Hnd) as (nd' & u0 & u1 & Hrel & Hin').
  rewrite (table_of_in ok G W _ Hg' _ _ Hin').
  eapply (relax_neighbors_upper _ _ _ _ _ _ Hrel n (routing_table ndn) c b nc h);
    eauto.
  - eapply get_some_keys; eauto.
  - rewrite (sent_tables_get ok G W _ _ T).
    now rewrite (in_get_nodup cur n ndn (topo_eq_nodup ok G W _ T) Hndn).
  - destruct (topo_eq_in ok G W _ _ _ T Hnd) as [g [_ [Hname _]]]. congruence.
Qed.

Lemma round_achieved a b :
  tables_nodup cur -> In a (keys G) ->
  current_cost (table_of cur' a) b = current_cost (table_of cur a) b \/
  exists n c,
    link G a n = Some c /\
    current_cost (table_of cur' a) b = cost_add c (current_cost (table_of cur n) b).
Proof.
  intros Hnodup Ha. pose proof Hg as [T Hok].
  pose proof (round_good ok G W _ _ _ Hg Hr) as Hg'.
  destruct (cur_node _ _ Hg a Ha) as [nd Hnd].
  pose proof Hr as Hr0. unfold round in Hr0.
  destruct (relax_nodes_in _ _ _ _ _ Hr0 _ _ Hnd) as (nd' & u0 & u1 & Hrel & Hin').
  apply relax_neighbors_steps in Hrel.
  rewrite (table_of_in ok G W _ Hg' _ _ Hin'), (table_of_in ok G W _ Hg _ _ Hnd).
  destruct (node_steps_achieved _ _ _ Hrel b)
    as [E|(nb & t & c & nc & h & Hs & Hc & Hin & E)]; [now left|right].
  exists nb, c. split.
  - now rewrite (cur_link ok G W _ _ _ nb T Hnd).
  - rewrite E. f_equal.
    rewrite (sent_tables_get ok G W _ _ T) in Hs.
    unfold table_of. destruct (get cur nb) as [ndn|] eqn:En; [|discriminate].
    injection Hs as <-. symmetry. eapply current_cost_entry.
    apply in_get_nodup; [|exact Hin].
    eapply Hnodup. eapply get_in; eauto.
Qed.

Lemma round_true_decreases :
  u = true ->
  exists a b,
    In a (keys G) /\
    cost_ltb (current_cost (table_of cur' a) b)
             (current_cost (table_of cur a) b) = true.
Proof.
  intros ->. pose proof Hg as [T Hok].
  pose proof (round_good ok G W _ _ _ Hg Hr) as Hg'.
  pose proof Hr as Hr0. unfold round in Hr0.
  apply relax_nodes_true in Hr0 as [Hf|(k & nd & nd' & d & Hin & Hin' & Hlt)];
    [discriminate|].
  exists k, d. split.
  - rewrite <- (topo_eq_keys G _ T). eapply in_keys; eauto.
  - now rewrite (table_of_in ok G W _ Hg' _ _ Hin'), (table_of_in ok G W _ Hg _ _ Hin).
Qed.

End BellmanFordRound.

(** X11. Each round is one synchronous Bellman-Ford step.  From the state
    a run on a built network has reached, the next round succeeds, and the
    cost node [a] then records for another node [b] is the least of the
    cost it had and, over the neighbors [n] of [a], the link cost to [n]
    plus the cost [n] had for [b] before the round: it is below each of
    them and equal to one of them.  The order in which nodes and neighbors
    are visited does not enter. *)
Theorem round_is_bellman_ford (ops : list op) (fuel : nat) :
  let cur := run_network (distance_vector_routing fuel (build ops)) in
  exists cur' u,
    round cur = Ok cur' u /\
    forall a b, In a (keys (build ops)) -> a <> b ->
      let new := current_cost (table_of cur' a) b in
      cost_leb new (current_cost (table_of cur a) b) = true /\
      (forall n c, link (build ops) a n = Some c ->
         cost_leb new (cost_add c (current_cost (table_of cur n) b)) = true) /\
      (new = current_cost (table_of cur a) b \/
       exists n c, link (build ops) a n = Some c /\
                   new = cost_add c (current_cost (table_of cur n) b)).
Proof.
  intros cur.
  pose proof (wf_build _ ops (any_cost_ok ops)) as W.
  destruct (loop_good _ _ W fuel 0%nat _ (good_init _ _ W)) as [Hg _].
  pose proof (loop_nodup _ _ W fuel 0%nat _ (good_init _ _ W) (init_nodup _ _ W))
    as Hnd.
  fold (distance_vector_routing fuel (build ops)) in Hg, Hnd. fold cur in Hg, Hnd.
  destruct (round_ok _ _ W cur Hg) as (cur' & u & Hr).
  exists cur', u. split; [assumption|].
  intros a b Ha Hne new. repeat split.
  - eapply round_cost_le; eauto.
  - intros n c Hl. eapply round_upper; eauto.
  - eapply round_achieved; eauto.
Qed.

(** * How fast the tables converge *)

Section HopBound.
Variables (ok : Z -> bool) (G : Network).
Hypothesis W : wf_topology ok G.
Hypothesis Hnn : forall c, ok c = true -> 0 <= c.

Lemma hop_init : hop_bounded G 1 (initialize_routing_tables G).
Proof.
  intros a hops b d Ha Hlen [Hc Hl].
  apply keys_get in Ha as [nd Hget]. apply get_in in Hget.
  destruct hops as [|n [|m hops]]; simpl in Hlen; [| |lia].
  - simpl in Hc, Hl. injection Hc as <-. subst b.
    rewrite (current_cost_entry _ a (Fin 0) (Some a)); [reflexivity|].
    rewrite (initial_entry _ _ W a nd a Hget). now rewrite String.eqb_refl.
  - simpl in Hc, Hl. subst b.
    destruct (link G a n) as [c|] eqn:El; [|discriminate]. injection Hc as <-.
    destruct (link_some ok G W _ _ _ El) as (_ & _ & _ & _ & Hok).
    apply Hnn in Hok.
    pose proof (initial_entry _ _ W a nd n Hget) as He. rewrite El in He.
    destruct (String.eqb n a);
      rewrite (current_cost_entry _ _ _ _ He); apply cost_leb_fin; lia.
Qed.

Lemma hop_step cur cur' u k :
  good G cur -> hop_bounded G k cur -> round cur = Ok cur' u ->
  hop_bounded G (S k) cur'.
Proof.
  intros Hg Hk Hr a hops b d Ha Hlen [Hc Hl].
  pose proof (round_good ok G W _ _ _ Hg Hr) as Hg'.
  destruct (cur_node _ _ Hg' a Ha) as [nd' Hnd'].
  pose proof (tbl_self _ _ _ (proj2 Hg' _ _ Hnd')) as Hself.
  rewrite <- (table_of_in ok G W _ Hg' _ _ Hnd') in Hself.
  destruct hops as [|n hops].
  - simpl in Hc, Hl. injection Hc as <-. subst b.
    now rewrite (current_cost_entry _ _ _ _ Hself).
  - simpl in Hc, Hlen. rewrite last_cons in Hl.
    destruct (link G a n) as [c|] eqn:El; [|discriminate].
    destruct (path_cost G n hops) as [d1|] eqn:Ep; [|discriminate].
    injection Hc as <-.
    destruct (link_some ok G W _ _ _ El) as (_ & _ & _ & Hn & Hok).
    apply Hnn in Hok. pose proof (path_nonneg ok G W Hnn _ _ _ Ep) as Hd1.
    destruct (string_dec a b) as [<-|Hne].
    + rewrite (current_cost_entry _ _ _ _ Hself). apply cost_leb_fin. lia.
    + eapply cost_leb_trans.
      * eapply (round_upper ok G W cur cur' u Hg Hr a n c b); eauto.
      * apply (cost_add_mono c _ (Fin d1)).
        apply (Hk n hops b d1); [assumption|lia|now split].
Qed.

Lemma fixpoint_hop cur :
  good G cur -> round cur = Ok cur false -> forall k, hop_bounded G k cur.
Proof.
  intros Hg Hfix k a hops b d Ha _ Hp.
  destruct (complete ok G W Hnn cur Hg Hfix hops a b d Ha Hp) as (d' & h & Hget & Hle).
  rewrite (current_cost_entry _ _ _ _ Hget). apply cost_leb_fin. lia.
Qed.

Lemma hop_loop fuel : forall i cur j,
  good G cur -> hop_bounded G j cur ->
  hop_bounded G (j + fuel) (run_network (dvr_loop fuel i cur)).
Proof.
  induction fuel as [|fuel IH]; simpl; intros i cur j Hg Hj.
  - now rewrite Nat.add_0_r.
  - destruct (round_ok ok G W cur Hg) as (cur1 & u & Hr). rewrite Hr.
    pose proof (round_good ok G W _ _ _ Hg Hr) as Hg1.
    destruct u.
    + replace (j + S fuel)%nat with (S j + fuel)%nat by lia.
      apply IH; [assumption|]. exact (hop_step cur cur1 true j Hg Hj Hr).
    + simpl. pose proof (round_false_same _ _ Hr) as ->.
      now apply fixpoint_hop.
Qed.

Lemma path_hops_in hops : forall a d,
  path_cost G a hops = Some d -> forall x, In x hops -> In x (keys G).
Proof.
  induction hops as [|n hops IH]; simpl; intros a d H x Hx; [contradiction|].
  destruct (link G a n) as [c|] eqn:El; [|discriminate].
  destruct (path_cost G n hops) as [d1|] eqn:Ep; [|discriminate].
  destruct Hx as [<-|Hx]; [|eauto].
  now destruct (link_some ok G W _ _ _ El) as (_ & _ & _ & Hn & _).
Qed.

Lemma remove_cycle_le p q r a d :
  path_cost G a (p ++ q ++ r) = Some d ->
  last q (last p a) = last p a ->
  exists d', path_cost G a (p ++ r) = Some d' /\ d' <= d /\
             last (p ++ r) a = last (p ++ q ++ r) a.
Proof.
  intros H Hl. rewrite !path_cost_app in H. rewrite Hl in H.
  destruct (path_cost G a p) as [x|] eqn:Ex; [|discriminate].
  destruct (path_cost G (last p a) q) as [y|] eqn:Ey; [|discriminate].
  destruct (path_cost G (last p a) r) as [z|] eqn:Ez; [|discriminate].
  injection H as <-.
  exists (x + z). rewrite path_cost_app, Ex, Ez. repeat split.
  - pose proof (path_nonneg ok G W Hnn _ _ _ Ey). lia.
  - now rewrite !last_app, Hl.
Qed.

(** A walk can be cut down to one that visits no node twice, without
    raising its cost. *)
Lemma shorten m : forall hops a d,
  (List.length hops <= m)%nat -> path_cost G a hops = Some d ->
  exists hops' d',
    path_cost G a hops' = Some d' /\ last hops' a = last hops a /\
    d' <= d /\ NoDup (a :: hops').
Proof.
  induction m as [|m IH]; intros hops a d Hlen Hc.
  - destruct hops; [|simpl in Hlen; lia].
    exists [], d. repeat split; auto; [lia|]. constructor; [tauto|constructor].
  - destruct (nodupb (a :: hops)) eqn:Eb.
    + exists hops, d. repeat split; auto; [lia|]. now apply nodupb_NoDup.
    + assert (Hdup : ~ NoDup (a :: hops)).
      { intros X. apply nodupb_NoDup in X. congruence. }
      apply dup_split in Hdup as (l1 & x & l2 & l3 & E).
      assert (Hcyc : exists p, hops = p ++ (l2 ++ [x]) ++ l3 /\ last p a = x).
      { destruct l1 as [|a' l1]; simpl in E; injection E as -> ->.
        - exists []. split; [|reflexivity]. simpl. now rewrite <- app_assoc.
        - exists (l1 ++ [x]). split.
          + rewrite <- !app_assoc. reflexivity.
          + now rewrite last_app. }
      destruct Hcyc as (p & -> & Hp).
      destruct (remove_cycle_le p (l2 ++ [x]) l3 a d Hc) as (d1 & Hc1 & Hle1 & Hl1).
      { now rewrite last_app, Hp. }
      destruct (IH (p ++ l3) a d1) as (hops' & d' & Hc' & Hl' & Hle' & Hnd'); auto.
      { rewrite !length_app in Hlen. rewrite length_app. simpl in Hlen. lia. }
      exists hops', d'. repeat split; auto; [congruence|lia].
Qed.

Lemma hop_all cur :
  hop_bounded G (List.length (keys G) - 1) cur -> forall k, hop_bounded G k cur.
Proof.
  intros H k a hops b d Ha _ [Hc Hl].
  destruct (shorten (List.length hops) hops a d (le_n _) Hc)
    as (hops' & d' & Hc' & Hl' & Hle & Hnd).
  assert (Hlen : (List.length (a :: hops') <= List.length (keys G))%nat).
  { apply NoDup_incl_length; [assumption|].
    intros x [<-|Hx]; [assumption|]. eapply path_hops_in; eauto. }
  simpl in Hlen.
  eapply cost_leb_trans.
  - apply (H a hops' b d'); [assumption|lia|]. split; congruence.
  - apply cost_leb_fin. lia.
Qed.

(** Once every walk is matched, a round has nothing left to improve. *)
Lemma optimal_fix cur cur' u :
  good G cur -> (forall k, hop_bounded G k cur) ->
  round cur = Ok cur' u -> u = false.
Proof.
  intros Hg Hall Hr. destruct u; [exfalso|reflexivity].
  pose proof (round_good ok G W _ _ _ Hg Hr) as Hg'.
  destruct (round_true_decreases ok G W _ _ _ Hg Hr eq_refl) as (a & b & Ha & Hlt).
  destruct (cur_node _ _ Hg' a Ha) as [nd' Hnd'].
  rewrite (table_of_in ok G W _ Hg' _ _ Hnd') in Hlt.
  unfold current_cost at 1 in Hlt. unfold get_default in Hlt.
  destruct (get (routing_table nd') b) as [[[x|] h]|] eqn:Eb; try discriminate.
  cbn [fst] in Hlt.
  destruct (tbl_sound _ _ _ (proj2 Hg' _ _ Hnd') _ _ (get_in _ _ _ Eb)) as [_ Hs].
  apply sound_entry_path in Hs as [hops Hp].
  pose proof (Hall (List.length hops) a hops b x Ha (le_n _) Hp) as Hle.
  unfold cost_leb in Hle. rewrite Hlt in Hle. discriminate.
Qed.

Lemma loop_bound r : forall cur j i,
  good G cur -> hop_bounded G j cur ->
  (List.length (keys G) - 1 <= j + r)%nat ->
  exists cur' it,
    dvr_loop (S r) i cur = Converged cur' it /\ (it <= i + r)%nat.
Proof.
  induction r as [|r IH]; intros cur j i Hg Hj Hn;
    destruct (round_ok ok G W cur Hg) as (cur1 & u & Hr);
    pose proof (round_good ok G W _ _ _ Hg Hr) as Hg1.
  - assert (u = false) as ->.
    { apply (optimal_fix cur cur1 u Hg); [|exact Hr]. apply hop_all.
      intros a hops b d Ha Hlen Hp. apply (Hj a hops b d); auto. lia. }
    exists cur1, i. simpl. rewrite Hr. split; [reflexivity|lia].
  - destruct u.
    + destruct (IH cur1 (S j) (S i) Hg1) as (cur' & it & Hloop & Hit).
      * exact (hop_step cur cur1 true j Hg Hj Hr).
      * lia.
      * exists cur', it. split; [|lia].
        change (dvr_loop (S (S r)) i cur) with
          (match round cur with
           | Raise net' => Aborted net'
           | Ok net' updated =>
               if updated then dvr_loop (S r) (S i) net' else Converged net' i
           end).
        now rewrite Hr.
    + exists cur1, i. simpl. rewrite Hr. split; [reflexivity|lia].
Qed.

End HopBound.

(** X12. After [k] rounds the tables already account for every walk of at
    most [k + 1] links: with non-negative link costs, the cost node [a]
    records for [b] in the state a run with fuel [k] leaves is at most the
    cost of any such walk from [a] to [b]. *)
Theorem k_round_bound (ops : list op) (fuel : nat) (a b : string)
  (hops : list string) (d : Z) :
  costs_nonnegative ops = true ->
  In a (keys (build ops)) ->
  (List.length hops <= S fuel)%nat ->
  is_path (build ops) a hops b d ->
  cost_leb
    (current_cost (table_of (run_network (distance_vector_routing fuel (build ops))) a) b)
    (Fin d) = true.
Proof.
  intros Hc Ha Hlen Hp. pose proof (wf_build _ ops Hc) as W.
  pose proof (hop_loop _ _ W nonneg_ok fuel 0%nat _ 1%nat
                (good_init _ _ W) (hop_init _ _ W nonneg_ok)) as H.
  apply (H a hops b d); auto.
Qed.

Lemma k_round_bound_witness :
  cost_leb
    (current_cost
       (table_of (run_network (distance_vector_routing 1 (build main_ops))) "A") "D")
    (Fin 5) = true.
Proof.
  apply (k_round_bound main_ops 1 "A" "D" ["C"; "D"] 5).
  - reflexivity.
  - simpl. auto.
  - simpl. lia.
  - split; reflexivity.
Defined.

(** X13. The loop needs few rounds: with non-negative link costs and [n]
    nodes, [distance_vector_routing] reports convergence at an iteration
    number of at most [n - 2] (at iteration 0 when there are at most two
    nodes), so [max 1 (n - 1)] passes of the loop body always suffice. *)
Theorem dvr_iteration_bound (ops : list op) :
  costs_nonnegative ops = true ->
  exists net' it,
    (it <= List.length (keys (build ops)) - 2)%nat /\
    forall fuel,
      (List.length (keys (build ops)) - 1 <= fuel)%nat -> (1 <= fuel)%nat ->
      distance_vector_routing fuel (build ops) = Converged net' it.
Proof.
  intros Hc. pose proof (wf_build _ ops Hc) as W.
  destruct (loop_bound _ _ W nonneg_ok (List.length (keys (build ops)) - 2)
              (initialize_routing_tables (build ops)) 1%nat 0%nat
              (good_init _ _ W) (hop_init _ _ W nonneg_ok))
    as (net' & it & Hloop & Hit); [lia|].
  exists net', it. split; [lia|].
  intros fuel Hf H1. unfold distance_vector_routing.
  eapply dvr_loop_more_fuel; eauto. lia.
Qed.

Lemma dvr_iteration_bound_witness :
  exists net' it,
    (it <= List.length (keys (build main_ops)) - 2)%nat /\
    forall fuel,
      (List.length (keys (build main_ops)) - 1 <= fuel)%nat -> (1 <= fuel)%nat ->
      distance_vector_routing fuel (build main_ops) = Converged net' it.
Proof. apply (dvr_iteration_bound main_ops). reflexivity. Defined.

(** * The converged tables as a whole *)

Section Reverse.
Variable G : Network.
Hypothesis Hsym : forall a b, link G a b = link G b a.

Lemma path_snoc hops a n c d :
  path_cost G a hops = Some d -> link G (last hops a) n = Some c ->
  path_cost G a (hops ++ [n]) = Some (d + c).
Proof.
  intros Hc Hl. rewrite path_cost_app, Hc. simpl. rewrite Hl.
  f_equal. lia.
Qed.

Lemma path_reverse hops : forall a d,
  path_cost G a hops = Some d ->
  exists hops', path_cost G (last hops a) hops' = Some d /\
                last hops' (last hops a) = a.
Proof.
  induction hops as [|n hops IH]; intros a d H.
  - exists []. auto.
  - simpl in H. rewrite last_cons.
    destruct (link G a n) as [c|] eqn:El; [|discriminate].
    destruct (path_cost G n hops) as [d1|] eqn:Ep; [|discriminate].
    injection H as <-.
    destruct (IH n d1 Ep) as (hops1 & Hc1 & Hl1).
    exists (hops1 ++ [a]). split.
    + replace (c + d1) with (d1 + c) by lia.
      apply path_snoc; [assumption|]. now rewrite Hl1, Hsym.
    + now rewrite last_app.
Qed.

Lemma is_path_reverse a hops b d :
  is_path G a hops b d -> exists hops', is_path G b hops' a d.
Proof.
  intros [Hc <-]. destruct (path_reverse _ _ _ Hc) as (hops' & Hc' & Hl').
  exists hops'. now split.
Qed.

Lemma shortest_sym a b k : shortest_path_cost G a b k -> shortest_path_cost G b a k.
Proof.
  destruct k as [d|]; simpl.
  - intros [[hops Hp] Hmin]. split.
    + eapply is_path_reverse; eauto.
    + intros hops' d' Hp'. apply is_path_reverse in Hp' as [hops'' Hp''].
      eapply Hmin; eauto.
  - intros Hun (hops & d & Hp). apply Hun.
    apply is_path_reverse in Hp as [hops' Hp']. now exists hops', d.
Qed.

End Reverse.

Lemma shortest_unique G a b k k' :
  shortest_path_cost G a b k -> shortest_path_cost G a b k' -> k = k'.
Proof.
  destruct k as [d|], k' as [d'|]; simpl; intros H H'.
  - destruct H as [[hops Hp] Hmin], H' as [[hops' Hp'] Hmin'].
    f_equal. specialize (Hmin _ _ Hp'). specialize (Hmin' _ _ Hp). lia.
  - destruct H as [[hops Hp] _]. exfalso. apply H'. now exists hops, d.
  - destruct H' as [[hops Hp] _]. exfalso. apply H. now exists hops, d'.
  - reflexivity.
Qed.

(** X14. Converged costs are symmetric: with non-negative link costs, the
    cost [a] records for [b] when the run has converged is the cost [b]
    records for [a], infinity on both sides when they are not connected. *)
Theorem converged_costs_symmetric (ops : list op) (fuel : nat) (net' : Network)
  (it : nat) (a b : string) :
  costs_nonnegative ops = true ->
  distance_vector_routing fuel (build ops) = Converged net' it ->
  In a (keys (build ops)) -> In b (keys (build ops)) ->
  current_cost (table_of net' a) b = current_cost (table_of net' b) a.
Proof.
  intros Hc Hrun Ha Hb.
  destruct (converged_entry_correct _ _ _ _ _ a b nonneg_ok Hc Hrun Ha Hb)
    as (k1 & h1 & Hg1 & Hs1 & _).
  destruct (converged_entry_correct _ _ _ _ _ b a nonneg_ok Hc Hrun Hb Ha)
    as (k2 & h2 & Hg2 & Hs2 & _).
  rewrite (current_cost_entry _ _ _ _ Hg1), (current_cost_entry _ _ _ _ Hg2).
  apply (shortest_unique (build ops) a b); [assumption|].
  apply shortest_sym; [|assumption]. apply link_symmetric.
Qed.

Lemma converged_costs_symmetric_witness :
  current_cost (table_of main_converged "A") "D" =
  current_cost (table_of main_converged "D") "A".
Proof.
  apply (converged_costs_symmetric main_ops 3 main_converged 2 "A" "D");
    [reflexivity | reflexivity | simpl; auto | simpl; auto 6].
Defined.

(** X15. Converged routes can be followed hop by hop: with positive link
    costs, when [a] records cost [d] and next hop [n] for another node
    [b], there is a link from [a] to [n], and [n] itself records for [b]
    exactly [d] minus the cost of that link, a strictly smaller cost. *)
Theorem next_hop_consistent (ops : list op) (fuel : nat) (net' : Network)
  (it : nat) (a b n : string) (d : Z) :
  costs_positive ops = true ->
  distance_vector_routing fuel (build ops) = Converged net' it ->
  a <> b ->
  get (table_of net' a) b = Some (Fin d, Some n) ->
  exists c x h,
    link (build ops) a n = Some c /\
    get (table_of net' n) b = Some (Fin x, h) /\
    d = c + x /\ x < d.
Proof.
  intros Hc Hrun Hne Hget.
  pose proof (wf_build _ ops Hc) as W.
  destruct (loop_converged _ _ W fuel _ _ _ _ (good_init _ _ W) Hrun) as [Hg _].
  assert (Ha : In a (keys (build ops))).
  { unfold table_of in Hget. destruct (get net' a) as [nd|] eqn:Ea; [|discriminate].
    rewrite <- (topo_eq_keys _ _ (proj1 Hg)). eapply get_some_keys; eauto. }
  assert (Hb : In b (keys (build ops))).
  { unfold table_of in Hget. destruct (get net' a) as [nd|] eqn:Ea; [|discriminate].
    apply get_in in Ea. apply get_in in Hget.
    now destruct (tbl_sound _ _ _ (proj2 Hg _ _ Ea) _ _ Hget). }
  destruct (converged_entry_correct _ _ _ _ _ a b pos_nonneg_ok Hc Hrun Ha Hb)
    as (k & h & Hget' & Hsp & Hs & _).
  rewrite Hget in Hget'. injection Hget' as <- <-. simpl in Hsp, Hs.
  destruct Hs as [[E _]|(_ & n' & hops & [= <-] & Hp)]; [contradiction|].
  pose proof Hp as [Hcost Hlast]. simpl in Hcost. rewrite last_cons in Hlast.
  destruct (link (build ops) a n) as [c|] eqn:El; [|discriminate].
  destruct (path_cost (build ops) n hops) as [d1|] eqn:Ep; [|discriminate].
  injection Hcost as <-.
  destruct (link_some _ _ W _ _ _ El) as (_ & _ & _ & Hn & Hcpos).
  apply pos_ok in Hcpos.
  destruct (converged_entry_correct _ _ _ _ _ n b pos_nonneg_ok Hc Hrun Hn Hb)
    as (kn & hn & Hgn & Hspn & _).
  destruct kn as [x|]; simpl in Hspn.
  - destruct Hspn as [[hops2 [Hc2 Hl2]] Hmin2].
    pose proof (Hmin2 hops d1 (conj Ep Hlast)) as Hx1.
    destruct Hsp as [_ Hmin].
    assert (Hx2 : c + d1 <= c + x).
    { apply (Hmin (n :: hops2)). split.
      - simpl. now rewrite El, Hc2.
      - now rewrite last_cons. }
    exists c, x, hn. repeat split; auto; lia.
  - exfalso. apply Hspn. exists hops, d1. now split.
Qed.

Lemma next_hop_consistent_witness :
  exists c x h,
    link (build main_ops) "A" "B" = Some c /\
    get (table_of main_converged "B") "D" = Some (Fin x, h) /\
    4 = c + x /\ x < 4.
Proof.
  apply (next_hop_consistent main_ops 3 main_converged 2 "A" "D" "B" 4);
    [reflexivity | reflexivity | discriminate | reflexivity].
Defined.
